(** * Shotgun hill climbing with 2-opt for the travelling salesman problem

    A shallow embedding of [TSPSolver] (TSPSolver-linear.cpp, src/main_tsp.cpp
    and src/main_tsp_p.cpp) and the properties of its cost model, its 2-opt
    neighbourhood scan, its hill-climbing loop and its restart reduction.

    Conventions of the embedding:
    - [double] is IEEE binary64, taken from the standard library's executable
      specification [SpecFloat] (precision 53, [emax] 1024, round to nearest
      even), so [+] and [<] below are the machine operations;
    - [std::vector<T>] is [list T]; [v[i]] outside the vector is undefined
      behaviour in C++ and is [None] here, so the functions that index
      vectors live in the [option] monad;
    - tour elements are C++ [int]s and are kept in [Z]; positions in a vector
      ([size_t]) are [nat];
    - [std::mt19937] and [std::shuffle] belong to the C++ library, not to
      this repository: the solver is written over an interface
      ([RandomEngine]) and its properties hold for every engine; the
      examples run on [std::mt19937] and the [std::shuffle] of GNU
      libstdc++ ([Mt19937]). *)

From Stdlib Require Import ZArith Lia Bool Factorial.
From Stdlib Require Import Floats.SpecFloat.
From Stdlib Require Import Ascii.
From stdpp Require Import base option list list_numbers sorting strings.

(** ** Binary64 arithmetic *)

Module Double.

Definition prec : Z := 53.
Definition emax : Z := 1024.

Abbreviation double := spec_float.

(** The literal [0.0]. *)
Definition zero : double := S754_zero false.

(** [x + y] on doubles. *)
Definition add (x y : double) : double := SFadd prec emax x y.

(** [x < y] on doubles ([false] as soon as one side is a NaN). *)
Definition ltb (x y : double) : bool := SFltb x y.

(** [std::numeric_limits<double>::max()], the largest finite double. *)
Definition max : double := SFmax_float prec emax.

(** The double nearest to an integer (used for literals). *)
Definition of_Z (z : Z) : double := binary_normalize prec emax z 0 false.

Definition is_nan (x : double) : bool :=
  match x with S754_nan => true | _ => false end.

(** Neither a NaN nor below zero. *)
Definition nonneg (x : double) : bool :=
  match x with
  | S754_nan => false
  | S754_zero _ => true
  | S754_infinity s | S754_finite s _ _ => negb s
  end.

End Double.

Abbreviation double := Double.double.

(** ** Data model *)

(** [std::vector<std::vector<double>> adjacencyMatrix_] *)
Abbreviation Matrix := (list (list double)).

(** [std::vector<int>] *)
Abbreviation Tour := (list Z).

(** [v[i]] for an [int] index: the index is converted to [size_t], so a
    negative one lands far outside the vector. *)
Definition vec_at {A : Type} (v : list A) (i : Z) : option A :=
  if (i <? 0)%Z then None else v !! Z.to_nat i.

(** [adjacencyMatrix_[a][b]] *)
Definition cost (adj : Matrix) (a b : Z) : option double :=
  row ← vec_at adj a; vec_at row b.

(** [isSquareMatrix]: every row has as many cells as there are rows. *)
Definition isSquareMatrix (adj : Matrix) : bool :=
  forallb (λ row, length row =? length adj) adj.

(** The check at the end of [loadAdjacencyMatrix]: the constructor throws
    unless the matrix is non-empty and square. *)
Definition loadAdjacencyMatrix (rows : Matrix) : option Matrix :=
  if (length rows =? 0) || negb (isSquareMatrix rows) then None else Some rows.

Definition valid_matrix (adj : Matrix) : Prop :=
  loadAdjacencyMatrix adj = Some adj.

(** A distance matrix as the spec wants it: no cell is negative or a NaN
    (the loader does not check this). *)
Definition matrix_nonneg (adj : Matrix) : bool :=
  forallb (forallb Double.nonneg) adj.

(** [std::iota(tour.begin(), tour.end(), 0)] on a vector of [n] cells. *)
Definition iota (n : nat) : Tour := seqZ 0 (Z.of_nat n).

(** A tour over [n] nodes: every index of [0 .. n-1] exactly once. *)
Definition is_tour (n : nat) (tour : Tour) : Prop := tour ≡ₚ iota n.

(** A tour as the solver builds them: node 0 stays at position 0. *)
Definition anchored_tour (n : nat) (tour : Tour) : Prop :=
  is_tour n tour ∧ tour !! 0 = Some 0%Z.

(** ** TourCost: [calculateTourLength] *)

(** The body of the [for] loop of [calculateTourLength], [todo] iterations
    from position [i] on, with the running value of [length]. *)
Fixpoint length_loop (adj : Matrix) (tour : Tour) (todo i : nat)
    (length : double) : option double :=
  match todo with
  | O => Some length
  | S todo' =>
      a ← tour !! i;
      b ← tour !! ((i + 1) mod (List.length tour));
      c ← cost adj a b;
      length_loop adj tour todo' (S i) (Double.add length c)
  end.

Definition calculateTourLength (adj : Matrix) (tour : Tour) : option double :=
  length_loop adj tour (length tour) 0 Double.zero.

(** ** NeighborhoodSearch: [twoOptSwap] and the scan of [hillClimb] *)

(** [std::reverse(v.begin() + first, v.begin() + last)]: the cells of the
    half-open range in reverse order, the rest of the vector untouched.
    (A range that leaves the vector is undefined behaviour in C++; the
    solver only reverses ranges inside the tour.) *)
Definition reverse_range {A : Type} (v : list A) (first last : nat) : list A :=
  take first v ++ reverse (take (last - first) (drop first v)) ++ drop last v.

(** [twoOptSwap]: a copy of the tour with the cells [i .. j] reversed.
    (The positions arrive as [int]; they are positions of the tour, so the
    conversion from [size_t] keeps their value.) *)
Definition twoOptSwap (tour : Tour) (i j : nat) : Tour :=
  let newTour := tour in
  reverse_range newTour i (j + 1).

(** What one pass over the neighbourhood leaves behind: the pairs [(i, j)]
    whose candidate tour was evaluated, in evaluation order (a ghost trace,
    the C++ code keeps no such record), and the accepted candidate with its
    length when [improvement] was set. *)
Abbreviation Pass := (list (nat * nat) * option (Tour * double))%type.

(** The [for j] loop of [hillClimb] for a fixed [i]: [todo] iterations
    from [j] on; it stops at the first candidate that is strictly shorter. *)
Fixpoint inner_loop (adj : Matrix) (currentTour : Tour) (currentLength : double)
    (i todo j : nat) : option Pass :=
  match todo with
  | O => Some ([], None)
  | S todo' =>
      let newTour := twoOptSwap currentTour i j in
      newLength ← calculateTourLength adj newTour;
      if Double.ltb newLength currentLength
      then Some ([(i, j)], Some (newTour, newLength))
      else
        '(trace, found) ← inner_loop adj currentTour currentLength i todo' (S j);
        Some ((i, j) :: trace, found)
  end.

(** The [for i] loop: [todo] iterations from [i] on, left as soon as the
    inner loop has set [improvement]. *)
Fixpoint outer_loop (adj : Matrix) (currentTour : Tour) (currentLength : double)
    (todo i : nat) : option Pass :=
  match todo with
  | O => Some ([], None)
  | S todo' =>
      '(trace, found) ←
        inner_loop adj currentTour currentLength i
          (length currentTour - (i + 1)) (i + 1);
      match found with
      | Some _ => Some (trace, found)
      | None =>
          '(trace', found') ← outer_loop adj currentTour currentLength todo' (S i);
          Some (trace ++ trace', found')
      end
  end.

(** One iteration of the [for iter] loop up to the test of [improvement]:
    [i] runs from 1 while [i < currentTour.size() - 1].  (On an empty tour
    the C++ bound wraps around in [size_t] and the outer loop spins without
    ever entering the inner one; the constructor rejects the empty matrix,
    so no tour is empty.) *)
Definition scan (adj : Matrix) (currentTour : Tour) (currentLength : double)
    : option Pass :=
  outer_loop adj currentTour currentLength (length currentTour - 1 - 1) 1.

(** ** HillClimb *)

(** Why the [for iter] loop was left. *)
Inductive Exit : Type :=
  | Converged    (* [if (!improvement) break;] *)
  | CapReached.  (* [iter < numIterations] failed *)

(** The pair returned by [hillClimb], with two ghost fields: the way the
    loop ended, and the value of [currentLength] at the end of each
    iteration, oldest first. *)
Record Climb : Type := MkClimb {
  final_tour : Tour;
  final_length : double;
  exit : Exit;
  observed : list double
}.

Fixpoint climb_loop (adj : Matrix) (todo : nat) (currentTour : Tour)
    (currentLength : double) : option Climb :=
  match todo with
  | O => Some (MkClimb currentTour currentLength CapReached [])
  | S todo' =>
      '(_, found) ← scan adj currentTour currentLength;
      match found with
      | None => Some (MkClimb currentTour currentLength Converged [currentLength])
      | Some (newTour, newLength) =>
          c ← climb_loop adj todo' newTour newLength;
          Some (MkClimb (final_tour c) (final_length c) (exit c)
                        (newLength :: observed c))
      end
  end.

(** ** RandomTourGenerator and the random engine *)

(** What the solver needs from [<random>] and [<algorithm>]: an engine
    that is built from a seed, and [std::shuffle], which leaves the range
    permuted and the engine advanced. *)
Class RandomEngine : Type := {
  engine : Type;
  seed_engine : Z → engine;
  shuffle : list Z → engine → list Z * engine;
  shuffle_Permutation : ∀ l g, (shuffle l g).1 ≡ₚ l
}.

(** An execution of the OpenMP parallel region, as far as the result
    depends on it: the threads in the order in which they enter the
    critical section, each with the number of iterations of the [omp for]
    loop that the work sharing gave it. *)
Abbreviation Schedule := (list (nat * nat)).

(** A schedule of [threads] threads that shares out [numRestarts]
    iterations. *)
Definition schedule_for (threads : nat) (numRestarts : Z) (s : Schedule) : Prop :=
  s.*1 ≡ₚ seq 0 threads ∧ sum_list (s.*2) = Z.to_nat numRestarts.

(** [unsigned] arithmetic. *)
Definition to_unsigned (z : Z) : Z := (z mod 2 ^ 32)%Z.

Section Solver.

Context `{RandomEngine}.

(** [generateRandomTour]: [iota], then a shuffle of everything but the
    first cell.  ([tour.begin() + 1] needs a non-empty vector.) *)
Definition generateRandomTour (adj : Matrix) (gen : engine) : Tour * engine :=
  match iota (length adj) with
  | [] => ([], gen)
  | first :: rest =>
      let '(rest', gen') := shuffle rest gen in (first :: rest', gen')
  end.

(** [hillClimb] with the ghost fields of [Climb]. *)
Definition hillClimb_run (adj : Matrix) (numIterations : Z) (gen : engine)
    : option (Climb * engine) :=
  let '(currentTour, gen') := generateRandomTour adj gen in
  currentLength ← calculateTourLength adj currentTour;
  c ← climb_loop adj (Z.to_nat numIterations) currentTour currentLength;
  Some (c, gen').

(** [hillClimb]: the pair [{currentTour, currentLength}]. *)
Definition hillClimb (adj : Matrix) (numIterations : Z) (gen : engine)
    : option ((Tour * double) * engine) :=
  '(c, gen') ← hillClimb_run adj numIterations gen;
  Some ((final_tour c, final_length c), gen').

(** ** ShotgunRunner, sequential *)

(** The body of the [if] in the restart loop: a run replaces the best
    one only when it is strictly shorter. *)
Definition keep_best (best current : Tour * double) : Tour * double :=
  if Double.ltb current.2 best.2 then current else best.

(** The [for restart] loop of [shotgunHillClimbing] on the member [gen_]. *)
Fixpoint restart_loop (adj : Matrix) (numIterations : Z) (todo : nat)
    (best : Tour * double) (gen : engine) : option ((Tour * double) * engine) :=
  match todo with
  | O => Some (best, gen)
  | S todo' =>
      '(current, gen') ← hillClimb adj numIterations gen;
      restart_loop adj numIterations todo' (keep_best best current) gen'
  end.

(** [bestTour] and [bestLength] before the first restart. *)
Definition no_best : Tour * double := ([], Double.max).

(** [shotgunHillClimbing], with [bestLength] kept next to [bestTour]
    (the C++ function returns [bestTour] alone). *)
Definition shotgunHillClimbing (adj : Matrix) (numIterations numRestarts : Z)
    (gen : engine) : option ((Tour * double) * engine) :=
  restart_loop adj numIterations (Z.to_nat numRestarts) no_best gen.

Definition solveTSP (adj : Matrix) (numIterations numRestarts : Z)
    (gen : engine) : option Tour :=
  '(best, _) ← shotgunHillClimbing adj numIterations numRestarts gen;
  Some best.1.

(** What [main] prints once the matrix is loaded: the tour returned by
    [solveTSP] and its length, computed again from the tour. *)
Definition main (adj : Matrix) (numIterations numRestarts seed : Z)
    : option (Tour * double) :=
  bestTour ← solveTSP adj numIterations numRestarts (seed_engine (to_unsigned seed));
  length ← calculateTourLength adj bestTour;
  Some (bestTour, length).

(** The hill-climb runs of the restart loop one after the other, as a
    list (specification side: the code never holds them together). *)
Fixpoint runs (adj : Matrix) (numIterations : Z) (todo : nat) (gen : engine)
    : option (list (Tour * double) * engine) :=
  match todo with
  | O => Some ([], gen)
  | S todo' =>
      '(current, gen') ← hillClimb adj numIterations gen;
      '(rest, gen'') ← runs adj numIterations todo' gen';
      Some (current :: rest, gen'')
  end.

(** ** ShotgunRunner, parallel (OpenMP) *)

(** The [omp for] loop as one thread sees it: the [todo] restarts that
    fell to this thread, on its [localGen]. *)
Fixpoint worker_loop (adj : Matrix) (numIterations : Z) (todo : nat)
    (localBest : Tour * double) (localGen : engine)
    : option ((Tour * double) * engine) :=
  match todo with
  | O => Some (localBest, localGen)
  | S todo' =>
      '(current, localGen') ← hillClimb adj numIterations localGen;
      worker_loop adj numIterations todo'
        (if Double.ltb current.2 localBest.2 then current else localBest)
        localGen'
  end.

(** The parallel region of one thread up to its critical section. *)
Definition worker (adj : Matrix) (numIterations : Z) (baseSeed : Z)
    (threadId share : nat) : option (Tour * double) :=
  let localGen := seed_engine (to_unsigned (baseSeed + Z.of_nat threadId)) in
  '(localBest, _) ← worker_loop adj numIterations share no_best localGen;
  Some localBest.

(** The critical sections in the order of the schedule. *)
Fixpoint critical_loop (adj : Matrix) (numIterations : Z) (baseSeed : Z)
    (s : Schedule) (best : Tour * double) : option (Tour * double) :=
  match s with
  | [] => Some best
  | (threadId, share) :: s' =>
      localBest ← worker adj numIterations baseSeed threadId share;
      critical_loop adj numIterations baseSeed s'
        (if Double.ltb localBest.2 best.2 then localBest else best)
  end.

(** [shotgunHillClimbingParallel] for one execution [s] of the parallel
    region, which says how the [numRestarts] iterations were shared (see
    [schedule_for]); [bestLength] is kept next to [bestTour]. *)
Definition shotgunHillClimbingParallel (adj : Matrix)
    (numIterations numRestarts : Z) (baseSeed : Z) (s : Schedule)
    : option (Tour * double) :=
  critical_loop adj numIterations baseSeed s no_best.

(** [main] of the parallel program once the matrix is loaded. *)
Definition main_parallel (adj : Matrix) (numIterations numRestarts seed : Z)
    (s : Schedule) : option (Tour * double) :=
  '(bestTour, _) ←
    shotgunHillClimbingParallel adj numIterations numRestarts (to_unsigned seed) s;
  length ← calculateTourLength adj bestTour;
  Some (bestTour, length).

End Solver.

(** ** Specification-side vocabulary *)

(** The edge that leaves position [k] of a cyclic tour. *)
Definition edge (tour : Tour) (k : nat) : option (Z * Z) :=
  a ← tour !! k; b ← tour !! ((k + 1) mod length tour); Some (a, b).

(** An edge without its direction. *)
Definition undirected (e : Z * Z) : Z * Z :=
  if (e.1 <=? e.2)%Z then e else (e.2, e.1).

(** The edges of the cycle, in the order of the tour. *)
Definition cycle_edges (tour : Tour) : list (Z * Z) :=
  omap (edge tour) (seq 0 (length tour)).

(** The 2-opt moves on a tour of [n] cells in the order of the spec:
    [i] from 1 to [n - 2] and, for each [i], [j] from [i + 1] to [n - 1]. *)
Definition moves (n : nat) : list (nat * nat) :=
  i ← seq 1 (n - 2); (λ j, (i, j)) <$> seq (i + 1) (n - (i + 1)).

(** Lexicographic order on moves. *)
Definition lex_lt (p q : nat * nat) : Prop :=
  p.1 < q.1 ∨ (p.1 = q.1 ∧ p.2 < q.2).

(** A move improves on the current length when the tour it yields is
    strictly shorter. *)
Definition improving (adj : Matrix) (tour : Tour) (len : double)
    (m : nat * nat) : Prop :=
  (λ l, Double.ltb l len) <$> calculateTourLength adj (twoOptSwap tour m.1 m.2)
  = Some true.

#[global] Instance improving_dec adj tour len m :
  Decision (improving adj tour len m).
Proof. unfold improving. apply _. Defined.

(** First-improvement search written out on a list of moves: the moves
    are tried in the order of the list and the first one that yields a
    strictly shorter tour is taken; nothing after it is tried. *)
Fixpoint first_improvement (adj : Matrix) (tour : Tour) (len : double)
    (ms : list (nat * nat)) : option Pass :=
  match ms with
  | [] => Some ([], None)
  | m :: ms' =>
      l ← calculateTourLength adj (twoOptSwap tour m.1 m.2);
      if Double.ltb l len
      then Some ([m], Some (twoOptSwap tour m.1 m.2, l))
      else '(trace, found) ← first_improvement adj tour len ms';
           Some (m :: trace, found)
  end.

(** [x ≤ y] as the hill climb sees it: strictly below, or the same value. *)
Definition below_or_same (x y : double) : Prop :=
  Double.ltb x y = true ∨ x = y.

(** Each value of a sequence is below or the same as the one before. *)
Definition non_increasing (l : list double) : Prop :=
  ∀ k a b, l !! k = Some a → l !! S k = Some b → below_or_same b a.

(** A 2-opt local optimum: no move yields a strictly shorter tour. *)
Definition local_optimum (adj : Matrix) (tour : Tour) (len : double) : Prop :=
  ∀ i j, 1 ≤ i → i < j → j ≤ length tour - 1 →
    ∃ l, calculateTourLength adj (twoOptSwap tour i j) = Some l
         ∧ Double.ltb l len = false.

(** The reduction of the restart loop over a list of run results. *)
Definition reduce (best : Tour * double) (results : list (Tour * double))
    : Tour * double :=
  foldl keep_best best results.

(** ** The engine of the programs: [std::mt19937] and [std::shuffle]

    [std::mt19937] is [mersenne_twister_engine<uint_fast32_t, 32, 624,
    397, 31, 0x9908b0df, 11, 0xffffffff, 7, 0x9d2c5680, 15, 0xefc60000, 18,
    1812433253>]; the C++ standard fixes its outputs.  The permutation
    that [std::shuffle] draws is left to the library: this is the one of
    GNU libstdc++ ([bits/random.tcc], [bits/uniform_int_dist.h],
    [bits/stl_algo.h]), where [uint_fast32_t] and [size_t] are 64 bits
    wide. *)

Module Mt19937.

Local Open Scope Z_scope.

Definition __w : Z := 32.
Definition __n : nat := 624.
Definition __m : nat := 397.
Definition __r : Z := 31.
Definition __a : Z := 0x9908b0df.
Definition __u : Z := 11.
Definition __d : Z := 0xffffffff.
Definition __s : Z := 7.
Definition __b : Z := 0x9d2c5680.
Definition __t : Z := 15.
Definition __c : Z := 0xefc60000.
Definition __l : Z := 18.
Definition __f : Z := 1812433253.

(** Arithmetic in [_UIntType] and in the unsigned 64-bit types of
    [std::shuffle]. *)
Definition to_UIntType (z : Z) : Z := z mod 2 ^ 64.

(** The members [_M_x] (624 words) and [_M_p]. *)
Record state : Type := MkState { _M_x : list Z; _M_p : nat }.

(** The [for] loop of [seed(result_type)]. *)
Fixpoint seed_loop (todo : nat) (i : Z) (prev : Z) : list Z :=
  match todo with
  | O => []
  | S todo' =>
      let x := prev in
      let x := Z.lxor x (Z.shiftr x (__w - 2)) in
      let x := to_UIntType (x * __f) in
      let x := to_UIntType (x + i mod Z.of_nat __n) in
      let x := x mod 2 ^ __w in
      x :: seed_loop todo' (i + 1) x
  end.

Definition seed (sd : Z) : state :=
  let x0 := sd mod 2 ^ __w in
  MkState (x0 :: seed_loop (__n - 1) 1 x0) __n.

Definition upper_mask : Z := to_UIntType (Z.shiftl (2 ^ 64 - 1) __r).
Definition lower_mask : Z := Z.lxor upper_mask (2 ^ 64 - 1).

(** One assignment of [_M_gen_rand]: [_M_x[k]] from [_M_x[k]],
    [_M_x[k1]] and [_M_x[km]].  (The vector always holds 624 words; a
    word that is not there reads as 0.) *)
Definition gen_step (x : list Z) (k k1 km : nat) : list Z :=
  let y := Z.lor (Z.land (x !!! k) upper_mask) (Z.land (x !!! k1) lower_mask) in
  <[k := Z.lxor (Z.lxor (x !!! km) (Z.shiftr y 1))
           (if Z.land y 1 =? 0 then 0 else __a)]> x.

Definition _M_gen_rand (g : state) : state :=
  let x := _M_x g in
  let x := foldl (λ x k, gen_step x k (k + 1) (k + __m)) x (seq 0 (__n - __m)) in
  let x := foldl (λ x k, gen_step x k (k + 1) (k + __m - __n)) x
             (seq (__n - __m) (__m - 1)) in
  let x := gen_step x (__n - 1) 0 (__m - 1) in
  MkState x 0.

(** [operator()]: the next 32-bit output. *)
Definition next (g : state) : Z * state :=
  let g := if decide (__n ≤ _M_p g)%nat then _M_gen_rand g else g in
  let z := _M_x g !!! _M_p g in
  let z := Z.lxor z (Z.land (Z.shiftr z __u) __d) in
  let z := Z.lxor z (Z.land (to_UIntType (Z.shiftl z __s)) __b) in
  let z := Z.lxor z (Z.land (to_UIntType (Z.shiftl z __t)) __c) in
  let z := Z.lxor z (Z.shiftr z __l) in
  (z, MkState (_M_x g) (S (_M_p g))).

(** [max() - min()] of the engine. *)
Definition urngrange : Z := (2 ^ __w - 1) - 0.

(** The [while] loop of [uniform_int_distribution::_S_nd], which draws
    again while the draw is rejected; [None] when the model has drawn
    [fuel] times in vain. *)
Fixpoint _S_nd_loop (fuel : nat) (g : state) (range threshold product : Z)
    : option (Z * state) :=
  let low := product mod 2 ^ 32 in
  if low <? threshold then
    match fuel with
    | O => None
    | S fuel' =>
        let '(z, g) := next g in
        _S_nd_loop fuel' g range threshold (to_UIntType (z * range))
    end
  else Some (product, g).

(** [_S_nd<uint64_t>(g, range)] with a 32-bit [range]. *)
Definition _S_nd (fuel : nat) (g : state) (range : Z) : option (Z * state) :=
  let '(z, g) := next g in
  let product := to_UIntType (z * range) in
  let low := product mod 2 ^ 32 in
  '(product, g) ←
    (if low <? range then
       let threshold := ((- range) mod 2 ^ 32) mod range in
       _S_nd_loop fuel g range threshold product
     else Some (product, g));
  Some (Z.shiftr product 32, g).

(** [uniform_int_distribution::operator()] up to the final [+ a]: a
    number in [0 .. urange]. *)
Fixpoint draw (fuel : nat) (urange : Z) (g : state) : option (Z * state) :=
  match fuel with
  | O => None
  | S fuel' =>
      if urngrange >? urange then
        let uerange := urange + 1 in
        _S_nd fuel' g (uerange mod 2 ^ 32)
      else if urngrange <? urange then
        let uerngrange := urngrange + 1 in
        '(high, g) ← draw fuel' (urange / uerngrange) g;
        let tmp := to_UIntType (uerngrange * high) in
        let '(z, g) := next g in
        let ret := to_UIntType (tmp + (z - 0)) in
        if (ret >? urange) || (ret <? tmp) then draw fuel' urange g
        else Some (ret, g)
      else Some (next g)
  end.

Definition uniform_int_distribution (fuel : nat) (a b : Z) (g : state)
    : option (Z * state) :=
  '(ret, g) ← draw fuel (to_UIntType (b - a)) g;
  Some (to_UIntType (ret + a), g).

Definition __gen_two_uniform_ints (fuel : nat) (b0 b1 : Z) (g : state)
    : option ((Z * Z) * state) :=
  '(x, g) ← uniform_int_distribution fuel 0 (b0 * b1 - 1) g;
  Some ((x / b1, x mod b1), g).

(** [std::iter_swap(first + i, first + j)] on the range [v].  (The
    positions that [std::shuffle] draws are inside the range; outside it
    the model leaves the range as it is.) *)
Definition iter_swap (v : list Z) (i j : nat) : list Z :=
  match v !! i, v !! j with
  | Some x, Some y => <[i := y]> (<[j := x]> v)
  | _, _ => v
  end.

(** The [while (__i != __last)] loop of [std::shuffle], two cells at a
    time. *)
Fixpoint pairs_loop (todo fuel : nat) (v : list Z) (i : nat) (g : state)
    : option (list Z * state) :=
  match todo with
  | O => Some (v, g)
  | S todo' =>
      let swap_range := Z.of_nat i + 1 in
      '(pospos, g) ← __gen_two_uniform_ints fuel swap_range (swap_range + 1) g;
      let v := iter_swap v i (Z.to_nat pospos.1) in
      let v := iter_swap v (i + 1) (Z.to_nat pospos.2) in
      pairs_loop todo' fuel v (i + 2) g
  end.

(** The [for] loop at the end of [std::shuffle], for ranges of 65536
    cells and more. *)
Fixpoint singles_loop (todo fuel : nat) (v : list Z) (i : nat) (g : state)
    : option (list Z * state) :=
  match todo with
  | O => Some (v, g)
  | S todo' =>
      '(pos, g) ← uniform_int_distribution fuel 0 (Z.of_nat i) g;
      singles_loop todo' fuel (iter_swap v i (Z.to_nat pos)) (i + 1) g
  end.

(** [std::shuffle(first, last, g)] on the range [v]. *)
Definition shuffle (fuel : nat) (v : list Z) (g : state) : option (list Z * state) :=
  match v with
  | [] => Some (v, g)
  | _ =>
      let urange := Z.of_nat (length v) in
      if urange <=? urngrange / urange then
        '(v, i, g) ←
          (if urange mod 2 =? 0 then
             '(pos, g) ← uniform_int_distribution fuel 0 1 g;
             Some (iter_swap v 1 (Z.to_nat pos), 2%nat, g)
           else Some (v, 1%nat, g));
        pairs_loop ((length v - i) / 2) fuel v i g
      else singles_loop (length v - 1) fuel v 1 g
  end.

(** How often the model lets a distribution reject its draw before it
    gives up (a draw is rejected with a probability below one half). *)
Definition rejections : nat := 64.

(** The outputs of the engine from a state on. *)
Fixpoint outputs (k : nat) (g : state) : list Z :=
  match k with
  | O => []
  | S k' => let '(z, g') := next g in z :: outputs k' g'
  end.

End Mt19937.

(** [std::mt19937] and [std::shuffle] as the engine of the solver.  (A
    shuffle that the model cannot finish leaves the range as it is.) *)
#[local] Instance mt19937_engine : RandomEngine.
Proof.
  refine {| engine := Mt19937.state;
            seed_engine := Mt19937.seed;
            shuffle v g := default (v, g) (Mt19937.shuffle Mt19937.rejections v g) |}.
  assert (Hswap1 : ∀ (v : list Z) j x y,
             v !! j = Some y → y :: <[j := x]> v ≡ₚ x :: v).
  { induction v as [|z v IH]; intros [|j] x y Hj; simplify_eq/=.
    - apply perm_swap.
    - rewrite perm_swap, (IH j x y Hj). apply perm_swap. }
  assert (Hswap : ∀ (v : list Z) i j, Mt19937.iter_swap v i j ≡ₚ v).
  { intros v i j. unfold Mt19937.iter_swap.
    destruct (v !! i) as [x|] eqn:Hi; [|done].
    destruct (v !! j) as [y|] eqn:Hj; [|done].
    revert i j Hi Hj. induction v as [|z v IH]; intros [|i] [|j] Hi Hj; simplify_eq/=.
    - done.
    - by apply Hswap1.
    - by apply Hswap1.
    - by rewrite (IH i j Hi Hj). }
  assert (Hpairs : ∀ todo fuel v i g v' g',
             Mt19937.pairs_loop todo fuel v i g = Some (v', g') → v' ≡ₚ v).
  { induction todo as [|todo IH]; intros fuel v i g v' g' Hl; simplify_eq/=; [done|].
    destruct (Mt19937.__gen_two_uniform_ints _ _ _ _) as [[pospos g1]|]; [|done].
    simpl in Hl. rewrite (IH _ _ _ _ _ _ Hl). by rewrite !Hswap. }
  assert (Hsingles : ∀ todo fuel v i g v' g',
             Mt19937.singles_loop todo fuel v i g = Some (v', g') → v' ≡ₚ v).
  { induction todo as [|todo IH]; intros fuel v i g v' g' Hl; simplify_eq/=; [done|].
    destruct (Mt19937.uniform_int_distribution _ _ _ _) as [[pos g1]|]; [|done].
    simpl in Hl. rewrite (IH _ _ _ _ _ _ Hl). by rewrite Hswap. }
  intros v g.
  destruct (Mt19937.shuffle Mt19937.rejections v g) as [[v' g']|] eqn:Hs; [|done].
  simpl. unfold Mt19937.shuffle in Hs. destruct v as [|z v]; [by simplify_eq|].
  destruct (_ <=? _)%Z; [|by eapply Hsingles].
  destruct (_ =? _)%Z.
  - destruct (Mt19937.uniform_int_distribution _ _ _ _) as [[pos g1]|]; [|done].
    simpl in Hs. rewrite (Hpairs _ _ _ _ _ _ _ Hs). by rewrite Hswap.
  - simpl in Hs. by eapply Hpairs.
Defined.

(** ** Instances *)

(** The classic four-node symmetric instance; its optimal tours have
    length 80. *)
Definition classic4 : Matrix :=
  map (map Double.of_Z)
    [ [0; 10; 15; 20]; [10; 0; 35; 25]; [15; 35; 0; 30]; [20; 25; 30; 0] ]%Z.

(** Positive infinity. *)
Definition inf : double := S754_infinity false.

(** Two nodes at the largest finite distance from each other. *)
Definition far2 : Matrix :=
  [ [Double.zero; Double.max]; [Double.max; Double.zero] ].

(** Four nodes with one-way streets: the tours [0 1 2 3] (length 10) and
    [0 2 3 1] (length 5) are both 2-opt local optima. *)
Definition detour4 : Matrix :=
  map (map Double.of_Z)
    [ [0; 2; 1; 9]; [1; 0; 3; 9]; [9; 9; 0; 1]; [4; 2; 9; 0] ]%Z.


(** Every cell of a vector of [int]s is a node index of an [n]-node
    instance. *)
Definition in_range (n : nat) (tour : Tour) : Prop :=
  Forall (λ a, (0 ≤ a < Z.of_nat n)%Z) tour.

(** A thread's local best is the empty start value or a tour with its
    length, strictly below [max()]. *)
Definition local_best_ok (adj : Matrix) (b : Tour * double) : Prop :=
  b = no_best
  ∨ (anchored_tour (length adj) b.1
     ∧ calculateTourLength adj b.1 = Some b.2
     ∧ Double.ltb b.2 Double.max = true).

(** ** Reading the input *)

(** An input stream over a text, as far as [std::getline] sees it: what is
    left to read and the two state bits ([std::cin] or a
    [std::stringstream] on the text; [badbit] never comes up). *)
Record istream : Type := MkStream {
  buffer : string;
  eofbit : bool;
  failbit : bool
}.

(** A stream that has just been opened on a text. *)
Definition istream_of (text : string) : istream := MkStream text false false.

(** [stream.good()] *)
Definition good (stream : istream) : bool :=
  negb (eofbit stream) && negb (failbit stream).

(** The characters in front of the first delimiter, and what follows that
    delimiter; [None] when the text ends before a delimiter is met. *)
Fixpoint extract (delim : ascii) (text : string) : string * option string :=
  match text with
  | EmptyString => (EmptyString, None)
  | String c rest =>
      if Ascii.eqb c delim then (EmptyString, Some rest)
      else let '(before, after) := extract delim rest in (String c before, after)
  end.

(** [std::getline(stream, str, delim)].  On a stream that is not [good()] it
    sets [failbit] and leaves [str] as it is.  Otherwise it erases [str]
    and reads into it up to the delimiter, which it takes out of the
    stream, or up to the end of the text, where it sets [eofbit]; when it
    could not take a single character out of the stream it sets
    [failbit]. *)
Definition getline (stream : istream) (str : string) (delim : ascii)
    : istream * string :=
  if good stream then
    match extract delim (buffer stream) with
    | (text, Some rest) => (MkStream rest false false, text)
    | (text, None) =>
        (MkStream EmptyString true
           (match text with EmptyString => true | _ => false end), text)
    end
  else (MkStream (buffer stream) (eofbit stream) true, str).

(** The exceptions of the program; [main] catches them all, prints
    [Error: ...] and returns 1. *)
Inductive exception : Type :=
  | bad_number       (* thrown by [std::stoi] or [std::stod] *)
  | invalid_matrix.  (* [std::runtime_error("Invalid adjacency matrix in CSV file")] *)

Inductive result (A : Type) : Type :=
  | Returned (a : A)
  | Thrown (e : exception).
Arguments Returned {A} a.
Arguments Thrown {A} e.

(** What a run of the program ends with. *)
Inductive outcome : Type :=
  | Printed (tour : Tour) (length : double)  (* the two lines of output, exit status 0 *)
  | Failed (e : exception).                  (* [Error: ...], exit status 1 *)

(** [std::stoi] and [std::stod], [None] where they throw. *)
Class Conversions : Type := {
  stoi : string → option Z;
  stod : string → option double
}.

Section Input.

Context `{Conversions} `{RandomEngine}.

(** The [while] loop of [parseCSVLine]; [None] only when the model runs
    out of [fuel]. *)
Fixpoint parseCSVLine_loop (fuel : nat) (ss : istream) (cell : string)
    (row : list double) : option (result (list double)) :=
  match fuel with
  | O => None
  | S fuel' =>
      let '(ss', cell') := getline ss cell ","%char in
      if failbit ss' then Some (Returned row)
      else
        match stod cell' with
        | None => Some (Thrown bad_number)
        | Some d => parseCSVLine_loop fuel' ss' cell' (row ++ [d])
        end
  end.

Definition parseCSVLine (line : string) : option (result (list double)) :=
  parseCSVLine_loop (S (String.length line)) (istream_of line) EmptyString [].

(** The [while] loop of [loadAdjacencyMatrix] on [std::cin]. *)
Fixpoint read_rows (fuel : nat) (cin : istream) (line : string)
    (rows : Matrix) : option (result Matrix) :=
  match fuel with
  | O => None
  | S fuel' =>
      let '(cin', line') := getline cin line "010"%char in
      if failbit cin' then Some (Returned rows)
      else
        match parseCSVLine line' with
        | None => None
        | Some (Thrown e) => Some (Thrown e)
        | Some (Returned row) => read_rows fuel' cin' line' (rows ++ [row])
        end
  end.

(** The constructor [TSPSolver(seed)] on what is left of [std::cin]: it
    reads the rows and throws unless they make a non-empty square matrix. *)
Definition TSPSolver_load (cin : istream) : option (result Matrix) :=
  match read_rows (S (String.length (buffer cin))) cin EmptyString [] with
  | None => None
  | Some (Thrown e) => Some (Thrown e)
  | Some (Returned rows) =>
      match loadAdjacencyMatrix rows with
      | None => Some (Thrown invalid_matrix)
      | Some adj => Some (Returned adj)
      end
  end.

(** The lines of [main] that read the three parameters out of the first
    line of the input.  The result of [std::getline] is not looked at:
    [line] goes to [std::stoi] as [std::getline] has left it. *)
Definition read_parameters (line : string) : result (Z * Z * Z) :=
  let myStream := istream_of line in
  let '(myStream, line) := getline myStream line " "%char in
  match stoi line with
  | None => Thrown bad_number
  | Some numIterations =>
      let '(myStream, line) := getline myStream line " "%char in
      match stoi line with
      | None => Thrown bad_number
      | Some numRestarts =>
          let '(myStream, line) := getline myStream line " "%char in
          match stoi line with
          | None => Thrown bad_number
          | Some seed => Returned (numIterations, numRestarts, seed)
          end
      end
  end.

(** [main] of the sequential program on the text of the standard input. *)
Definition main_cin (input : string) : option outcome :=
  let '(cin, line) := getline (istream_of input) EmptyString "010"%char in
  match read_parameters line with
  | Thrown e => Some (Failed e)
  | Returned (numIterations, numRestarts, seed) =>
      match TSPSolver_load cin with
      | None => None
      | Some (Thrown e) => Some (Failed e)
      | Some (Returned adj) =>
          '(bestTour, length) ← main adj numIterations numRestarts seed;
          Some (Printed bestTour length)
      end
  end.

End Input.

(** ** Specification-side vocabulary of the input *)

(** The pieces of a text between delimiters, as a [std::getline] loop
    yields them: an empty piece at the very end (empty text, or a text
    that ends with the delimiter) is no piece. *)
Fixpoint pieces (delim : ascii) (text : string) : list string :=
  match text with
  | EmptyString => []
  | String c rest =>
      if Ascii.eqb c delim then EmptyString :: pieces delim rest
      else
        match pieces delim rest with
        | [] => [String c EmptyString]
        | p :: ps => String c p :: ps
        end
  end.

(** The pieces put together again with the delimiter between them. *)
Fixpoint join (delim : ascii) (ps : list string) : string :=
  match ps with
  | [] => EmptyString
  | [p] => p
  | p :: ps' => p +:+ String delim (join delim ps')
  end.

(** A text without the delimiter. *)
Fixpoint free_of (delim : ascii) (text : string) : bool :=
  match text with
  | EmptyString => true
  | String c rest => negb (Ascii.eqb c delim) && free_of delim rest
  end.

(** Going through a list with a function that may throw: the first
    exception ends it. *)
Fixpoint collect {A B : Type} (f : A → result B) (l : list A) : result (list B) :=
  match l with
  | [] => Returned []
  | x :: l' =>
      match f x with
      | Thrown e => Thrown e
      | Returned y =>
          match collect f l' with
          | Thrown e => Thrown e
          | Returned ys => Returned (y :: ys)
          end
      end
  end.

(** What a reading loop returns that has [done] already and goes on with
    [r]. *)
Definition extend {A : Type} (done : list A) (r : result (list A))
    : result (list A) :=
  match r with
  | Returned more => Returned (done ++ more)
  | Thrown e => Thrown e
  end.

(** A cell of a row: [std::stod] on a piece of the line. *)
Definition to_cell `{Conversions} (piece : string) : result double :=
  match stod piece with
  | None => Thrown bad_number
  | Some d => Returned d
  end.

(** The row of a line: its pieces between commas, converted one by one. *)
Definition cells `{Conversions} (line : string) : result (list double) :=
  collect to_cell (pieces ","%char line).

(** The three parameters out of three fields. *)
Definition parameters `{Conversions} (a b c : string) : result (Z * Z * Z) :=
  match stoi a with
  | None => Thrown bad_number
  | Some numIterations =>
      match stoi b with
      | None => Thrown bad_number
      | Some numRestarts =>
          match stoi c with
          | None => Thrown bad_number
          | Some seed => Returned (numIterations, numRestarts, seed)
          end
      end
  end.

(** The delimiter of [std::getline] without a third argument. *)
Definition newline : ascii := "010"%char.

(** The first line of the input and the lines after it, as [main] and
    [loadAdjacencyMatrix] get them from [std::cin]. *)
Definition input_lines (input : string) : string * list string :=
  match extract newline input with
  | (first, Some rest) => (first, pieces newline rest)
  | (first, None) => (first, [])
  end.

(** A matrix as a text: one row per line, the cells of a row between
    commas. *)
Definition row_text (show : double → string) (row : list double) : string :=
  join ","%char (show <$> row).

Definition matrix_text (show : double → string) (rows : Matrix) : string :=
  join newline (row_text show <$> rows).

(** ** Conversions to run the program on

    [std::stoi] and [std::stod] cut down to plain decimal numerals (the
    library functions accept more: blanks and a sign in front, a fraction,
    an exponent, text behind the number). *)
Fixpoint decimal (text : string) (acc : Z) : option Z :=
  match text with
  | EmptyString => Some acc
  | String c rest =>
      let d := (Z.of_nat (nat_of_ascii c) - 48)%Z in
      if ((0 <=? d) && (d <=? 9))%Z then decimal rest (10 * acc + d)%Z else None
  end.

Definition decimal_numeral (text : string) : option Z :=
  match text with EmptyString => None | _ => decimal text 0 end.

#[local] Instance decimal_conversions : Conversions := {|
  stoi := decimal_numeral;
  stod text := Double.of_Z <$> decimal_numeral text
|}.

(** Two nodes at distance 7, and how its cells are written. *)
Definition pair7 : Matrix :=
  map (map Double.of_Z) [ [0; 7]; [7; 0] ]%Z.

Definition show7 (d : double) : string :=
  if SFeqb d (Double.of_Z 7) then "7" else "0".

(** An input of the program: the parameter line, then [classic4]. *)
Definition classic4_input : string :=
  "100 5 42" +:+ String newline
    ("0,10,15,20" +:+ String newline
      ("10,0,35,25" +:+ String newline
        ("15,35,0,30" +:+ String newline
          ("20,25,30,0" +:+ String newline EmptyString)))).

(** The same parameters and a matrix with a blank line between its rows. *)
Definition blank_line_input : string :=
  "100 5 42" +:+ String newline
    ("0,7" +:+ String newline (String newline ("7,0" +:+ String newline EmptyString))).

(** * Properties *)

(** ** Order on doubles *)

Lemma ltb_compare x y : Double.ltb x y = true ↔ SFcompare x y = Some Lt.
Proof.
  unfold Double.ltb, SFltb.
  destruct (SFcompare x y) as [[]|]; split; congruence.
Qed.

Lemma SFcompare_Lt_trans x y z :
  SFcompare x y = Some Lt → SFcompare y z = Some Lt → SFcompare x z = Some Lt.
Proof.
  destruct x as [sx|sx| |sx mx ex], y as [sy|sy| |sy my ey],
    z as [sz|sz| |sz mz ez]; simpl;
    try destruct sx; try destruct sy; try destruct sz; simpl;
    try congruence;
    rewrite ?Pos.compare_cont_spec; simpl;
    destruct (Z.compare_spec ex ey), (Z.compare_spec ey ez),
      (Z.compare_spec ex ez); try congruence; try lia; subst;
    destruct (Pos.compare_spec mx my), (Pos.compare_spec my mz),
      (Pos.compare_spec mx mz); simpl; try congruence; try lia.
Qed.

Lemma ltb_trans x y z :
  Double.ltb x y = true → Double.ltb y z = true → Double.ltb x z = true.
Proof. rewrite !ltb_compare. apply SFcompare_Lt_trans. Qed.

Lemma ltb_irrefl x : Double.ltb x x = false.
Proof.
  unfold Double.ltb, SFltb.
  destruct x as [s|s| |s m e]; simpl; try destruct s; try reflexivity;
    rewrite Z.compare_refl, Pos.compare_cont_spec, Pos.compare_refl; reflexivity.
Qed.

Lemma SFcompare_antisym x y :
  SFcompare y x = CompOpp <$> SFcompare x y.
Proof.
  destruct x as [sx|sx| |sx mx ex], y as [sy|sy| |sy my ey]; simpl;
    try destruct sx; try destruct sy; simpl; try reflexivity;
    rewrite ?Pos.compare_cont_spec; simpl;
    rewrite (Z.compare_antisym ex ey), (Pos.compare_antisym mx my);
    destruct (ex ?= ey)%Z, (mx ?= my)%positive; reflexivity.
Qed.

Lemma SFcompare_Eq_Lt_trans x y z :
  SFcompare x y = Some Eq → SFcompare y z = Some Lt → SFcompare x z = Some Lt.
Proof.
  destruct x as [sx|sx| |sx mx ex], y as [sy|sy| |sy my ey],
    z as [sz|sz| |sz mz ez]; simpl;
    try destruct sx; try destruct sy; try destruct sz; simpl;
    try congruence;
    rewrite ?Pos.compare_cont_spec; simpl;
    destruct (Z.compare_spec ex ey), (Z.compare_spec ey ez),
      (Z.compare_spec ex ez); try congruence; try lia; subst;
    destruct (Pos.compare_spec mx my), (Pos.compare_spec my mz),
      (Pos.compare_spec mx mz); simpl; try congruence; try lia.
Qed.

Lemma SFcompare_refl x : Double.is_nan x = false → SFcompare x x = Some Eq.
Proof.
  destruct x as [s|s| |s m e]; simpl; try destruct s; try done;
    rewrite Z.compare_refl, Pos.compare_cont_spec, Pos.compare_refl; done.
Qed.

Lemma ltb_asym x y : Double.ltb x y = true → Double.ltb y x = false.
Proof.
  intros Hxy. destruct (Double.ltb y x) eqn:Hyx; [|done].
  pose proof (ltb_trans _ _ _ Hxy Hyx) as Hxx.
  by rewrite ltb_irrefl in Hxx.
Qed.

Lemma ltb_not_leb x y : Double.ltb x y = true → SFleb y x = false.
Proof.
  rewrite ltb_compare. intros Hxy. unfold SFleb.
  by rewrite (SFcompare_antisym x y), Hxy.
Qed.

Lemma leb_ltb_trans x y z :
  SFleb x y = true → Double.ltb y z = true → Double.ltb x z = true.
Proof.
  unfold SFleb. rewrite !ltb_compare.
  destruct (SFcompare x y) as [[]|] eqn:Hxy; try done; intros _ Hyz.
  - by eapply SFcompare_Eq_Lt_trans.
  - by eapply SFcompare_Lt_trans.
Qed.

Lemma ltb_leb x y : Double.ltb x y = true → SFleb x y = true.
Proof. rewrite ltb_compare. unfold SFleb. by intros ->. Qed.

(** Sums of cells that are neither negative nor NaN are neither. *)

Lemma shr_1_nonneg mrs : (0 ≤ shr_m mrs)%Z → (0 ≤ shr_m (shr_1 mrs))%Z.
Proof. destruct mrs as [[|[p|p|]|p] r s]; simpl; lia. Qed.

Lemma iter_pos_shr_1_nonneg p mrs :
  (0 ≤ shr_m mrs)%Z → (0 ≤ shr_m (SpecFloat.iter_pos shr_1 p mrs))%Z.
Proof.
  revert mrs. induction p as [p IH|p IH|]; intros mrs Hm; simpl;
    auto using shr_1_nonneg.
Qed.

Lemma shr_fexp_nonneg m e l :
  (0 ≤ m)%Z → (0 ≤ shr_m (shr_fexp Double.prec Double.emax m e l).1)%Z.
Proof.
  intros Hm. unfold shr_fexp, shr.
  assert (Hrec : (0 ≤ shr_m (shr_record_of_loc m l))%Z)
    by (destruct l as [|[]]; simpl; lia).
  destruct (_ - e)%Z; simpl; auto using iter_pos_shr_1_nonneg.
Qed.

Lemma round_nearest_even_nonneg m l :
  (0 ≤ m)%Z → (0 ≤ round_nearest_even m l)%Z.
Proof. intros Hm. destruct l as [|[]]; simpl; try destruct (Z.even m); lia. Qed.

Lemma binary_round_aux_nonneg m e l :
  (0 ≤ m)%Z →
  Double.nonneg (binary_round_aux Double.prec Double.emax false m e l) = true.
Proof.
  intros Hm. unfold binary_round_aux.
  pose proof (shr_fexp_nonneg m e l Hm) as H1.
  destruct (shr_fexp Double.prec Double.emax m e l) as [mrs' e']. simpl in H1.
  pose proof (shr_fexp_nonneg _ e' loc_Exact
                (round_nearest_even_nonneg _ (loc_of_shr_record mrs') H1)) as H2.
  destruct (shr_fexp Double.prec Double.emax _ e' loc_Exact) as [mrs'' e''].
  simpl in H2. destruct (shr_m mrs''); [done| |lia].
  by destruct (_ <=? _)%Z.
Qed.

Lemma add_nonneg x y :
  Double.nonneg x = true → Double.nonneg y = true →
  Double.nonneg (Double.add x y) = true.
Proof.
  destruct x as [sx|[]| |[] mx ex], y as [sy|[]| |[] my ey]; simpl; try done.
  - by destruct sx, sy.
  - intros _ _. unfold Double.add, SFadd, binary_normalize, binary_round. simpl.
    destruct (shl_align _ _ _) as [mz ez]. by apply binary_round_aux_nonneg.
Qed.

Lemma nonneg_not_nan x : Double.nonneg x = true → Double.is_nan x = false.
Proof. by destruct x. Qed.

(** ** Well-formed inputs *)

Lemma valid_matrix_inv adj :
  valid_matrix adj →
  0 < length adj ∧ ∀ i row, adj !! i = Some row → length row = length adj.
Proof.
  unfold valid_matrix, loadAdjacencyMatrix, isSquareMatrix. intros Hv.
  destruct (length adj =? 0) eqn:He; [discriminate|].
  destruct (forallb _ adj) eqn:Hf; [|discriminate].
  apply Nat.eqb_neq in He. split; [lia|].
  intros i row Hi. rewrite forallb_forall in Hf.
  apply Nat.eqb_eq, Hf, list_elem_of_In, list_elem_of_lookup. eauto.
Qed.

Lemma cost_defined adj a b :
  valid_matrix adj →
  (0 ≤ a < Z.of_nat (length adj))%Z → (0 ≤ b < Z.of_nat (length adj))%Z →
  is_Some (cost adj a b).
Proof.
  intros [_ Hsq]%valid_matrix_inv Ha Hb. unfold cost, vec_at.
  destruct (Z.ltb_spec a 0); [lia|]. destruct (Z.ltb_spec b 0); [lia|].
  destruct (lookup_lt_is_Some_2 adj (Z.to_nat a)) as [row Hrow]; [lia|].
  rewrite Hrow. simpl. apply lookup_lt_is_Some_2.
  rewrite (Hsq _ _ Hrow). lia.
Qed.

Lemma is_tour_length n tour : is_tour n tour → length tour = n.
Proof.
  intros Hp. rewrite (Permutation_length Hp). unfold iota.
  rewrite length_seqZ. lia.
Qed.

Lemma is_tour_range n tour k a :
  is_tour n tour → tour !! k = Some a → (0 ≤ a < Z.of_nat n)%Z.
Proof.
  intros Hp Hk. apply list_elem_of_lookup_2 in Hk.
  rewrite Hp in Hk. apply elem_of_seqZ in Hk. lia.
Qed.

(** ** TourCost *)

Lemma edge_defined tour k :
  k < length tour → ∃ a b, edge tour k = Some (a, b)
    ∧ tour !! k = Some a ∧ tour !! ((k + 1) mod length tour) = Some b.
Proof.
  intros Hk. unfold edge.
  destruct (lookup_lt_is_Some_2 tour k Hk) as [a Ha].
  destruct (lookup_lt_is_Some_2 tour ((k + 1) mod length tour)) as [b Hb].
  { apply Nat.mod_upper_bound. lia. }
  exists a, b. rewrite Ha, Hb. done.
Qed.

Lemma length_loop_sum adj tour todo i acc :
  valid_matrix adj → is_tour (length adj) tour → i + todo ≤ length tour →
  ∃ costs : list double,
    length costs = todo
    ∧ (∀ k, k < todo → ∃ a b c,
          edge tour (i + k) = Some (a, b) ∧ cost adj a b = Some c
          ∧ costs !! k = Some c)
    ∧ length_loop adj tour todo i acc = Some (foldl Double.add acc costs).
Proof.
  intros Hv Ht. revert i acc.
  induction todo as [|todo IH]; intros i acc Hi.
  - exists []. split; [done|]. split; [intros k Hk; lia | done].
  - destruct (edge_defined tour i) as (a & b & He & Ha & Hb); [lia|].
    destruct (cost_defined adj a b Hv) as [c Hc];
      [by eapply is_tour_range | by eapply is_tour_range |].
    destruct (IH (S i) (Double.add acc c)) as (costs & Hlen & Hk & Hloop); [lia|].
    exists (c :: costs). split; [simpl; lia|]. split.
    + intros [|k] Hlt.
      * exists a, b, c. rewrite Nat.add_0_r. done.
      * destruct (Hk k) as (a' & b' & c' & ? & ? & ?); [lia|].
        exists a', b', c'. replace (i + S k) with (S i + k) by lia. done.
    + simpl. rewrite Ha. simpl. rewrite Hb. simpl. rewrite Hc. simpl. done.
Qed.

Lemma cost_nonneg adj a b c :
  matrix_nonneg adj = true → cost adj a b = Some c → Double.nonneg c = true.
Proof.
  unfold matrix_nonneg, cost, vec_at. intros Hnn Hc.
  destruct (a <? 0)%Z; [done|].
  destruct (adj !! Z.to_nat a) as [row|] eqn:Hrow; [|done]. simpl in Hc.
  destruct (b <? 0)%Z; [done|].
  rewrite forallb_forall in Hnn.
  apply list_elem_of_lookup_2, list_elem_of_In, Hnn in Hrow.
  rewrite forallb_forall in Hrow.
  by apply list_elem_of_lookup_2, list_elem_of_In, Hrow in Hc.
Qed.

Lemma length_loop_nonneg adj tour todo i acc len :
  matrix_nonneg adj = true → Double.nonneg acc = true →
  length_loop adj tour todo i acc = Some len → Double.nonneg len = true.
Proof.
  intros Hnn. revert i acc.
  induction todo as [|todo IH]; intros i acc Hacc Hloop; simpl in Hloop.
  - by simplify_eq.
  - destruct (tour !! i) as [a|]; [|done]. simpl in Hloop.
    destruct (tour !! _) as [b|]; [|done]. simpl in Hloop.
    destruct (cost adj a b) as [c|] eqn:Hc; [|done]. simpl in Hloop.
    eapply IH; [|done]. apply add_nonneg; [done|]. by eapply cost_nonneg.
Qed.

(** On a matrix without negative cells or NaNs no tour length is negative
    or a NaN (it may be infinite). *)
Lemma calculateTourLength_nonneg adj tour len :
  matrix_nonneg adj = true → calculateTourLength adj tour = Some len →
  Double.nonneg len = true.
Proof. intros Hnn. by apply length_loop_nonneg. Qed.

(** C1. On a loaded matrix and a tour that is a permutation of its [N]
    nodes, [calculateTourLength] returns the sum, accumulated from [0.0] in
    the order [k = 0 .. N-1], of exactly [N] edge costs
    [cost(tour[k], tour[(k+1) mod N])]; the last of them is the cost of the
    closing edge from the last cell back to the first. *)
Theorem calculateTourLength_cycle_sum adj tour :
  valid_matrix adj → is_tour (length adj) tour →
  ∃ costs : list double,
    length costs = length adj
    ∧ (∀ k, k < length adj → ∃ a b c,
          tour !! k = Some a ∧ tour !! ((k + 1) mod length adj) = Some b
          ∧ cost adj a b = Some c ∧ costs !! k = Some c)
    ∧ (∃ a b c,
          tour !! (length adj - 1) = Some a ∧ tour !! 0 = Some b
          ∧ cost adj a b = Some c ∧ last costs = Some c)
    ∧ calculateTourLength adj tour = Some (foldl Double.add Double.zero costs).
Proof.
  intros Hv Ht. pose proof (is_tour_length _ _ Ht) as Hlen.
  pose proof (valid_matrix_inv _ Hv) as [Hpos _].
  destruct (length_loop_sum adj tour (length tour) 0 Double.zero Hv Ht)
    as (costs & Hc & Hk & Hloop); [lia|].
  assert (Hedge : ∀ k, k < length adj → ∃ a b c,
            tour !! k = Some a ∧ tour !! ((k + 1) mod length adj) = Some b
            ∧ cost adj a b = Some c ∧ costs !! k = Some c).
  { intros k Hlt. destruct (Hk k) as (a & b & c & He & Hcost & Hck); [lia|].
    simpl in He. unfold edge in He. rewrite Hlen in He.
    destruct (tour !! k) as [a'|] eqn:Ha; [|done]. simpl in He.
    destruct (tour !! ((k + 1) mod length adj)) as [b'|] eqn:Hb; [|done].
    simpl in He. injection He as -> ->. exists a, b, c. done. }
  exists costs. split; [lia|]. split; [exact Hedge|]. split; [|exact Hloop].
  destruct (Hedge (length adj - 1)) as (a & b & c & Ha & Hb & Hcost & Hck); [lia|].
  exists a, b, c. split; [done|].
  replace ((length adj - 1 + 1) mod length adj) with 0 in Hb
    by (replace (length adj - 1 + 1) with (length adj) by lia;
        by rewrite Nat.Div0.mod_same).
  split; [done|]. split; [done|].
  rewrite last_lookup. rewrite <- Hck. f_equal. lia.
Qed.

(** ** The 2-opt move *)

Section ReverseRange.

Context {A : Type}.
Implicit Types v : list A.

Lemma length_reverse_range v first last :
  first ≤ last → length (reverse_range v first last) = length v.
Proof.
  intros Hfl. unfold reverse_range.
  rewrite !length_app, length_reverse, !length_take, !length_drop. lia.
Qed.

Lemma reverse_range_lookup_before v first last k :
  first ≤ last → k < first → reverse_range v first last !! k = v !! k.
Proof.
  intros Hfl Hk. unfold reverse_range.
  destruct (decide (k < length v)) as [Hlt|Hge].
  - rewrite lookup_app_l by (rewrite length_take; lia).
    by apply lookup_take_lt.
  - rewrite (lookup_ge_None_2 v k) by lia.
    apply lookup_ge_None_2.
    rewrite !length_app, length_reverse, !length_take, !length_drop. lia.
Qed.

Lemma reverse_range_lookup_inside v first last k :
  first ≤ k → k < last → last ≤ length v →
  reverse_range v first last !! k = v !! (first + last - 1 - k).
Proof.
  intros Hf Hl Hlen. unfold reverse_range.
  rewrite lookup_app_r by (rewrite length_take; lia).
  rewrite length_take_le by lia.
  rewrite lookup_app_l
    by (rewrite length_reverse, length_take, length_drop; lia).
  rewrite reverse_lookup by (rewrite length_take, length_drop; lia).
  rewrite length_take, length_drop.
  rewrite lookup_take_lt by lia. rewrite lookup_drop. f_equal. lia.
Qed.

Lemma reverse_range_lookup_after v first last k :
  first ≤ last → last ≤ k → last ≤ length v →
  reverse_range v first last !! k = v !! k.
Proof.
  intros Hfl Hl Hlen. unfold reverse_range.
  rewrite lookup_app_r by (rewrite length_take; lia).
  rewrite length_take_le by lia.
  rewrite lookup_app_r
    by (rewrite length_reverse, length_take, length_drop; lia).
  rewrite length_reverse, length_take, length_drop.
  rewrite lookup_drop. f_equal. lia.
Qed.

Lemma reverse_range_Permutation v first last :
  first ≤ last → reverse_range v first last ≡ₚ v.
Proof.
  intros Hfl. unfold reverse_range. rewrite reverse_Permutation.
  rewrite <- (take_drop first v) at 4.
  apply Permutation_app_head.
  replace (drop last v) with (drop (last - first) (drop first v))
    by (rewrite drop_drop; f_equal; lia).
  by rewrite take_drop.
Qed.

End ReverseRange.

Lemma length_twoOptSwap tour i j :
  i ≤ j → length (twoOptSwap tour i j) = length tour.
Proof. intros. unfold twoOptSwap. apply length_reverse_range. lia. Qed.

Lemma twoOptSwap_lookup_inside tour i j k :
  i ≤ k → k ≤ j → j < length tour →
  twoOptSwap tour i j !! k = tour !! (i + j - k).
Proof.
  intros. unfold twoOptSwap. simpl.
  rewrite reverse_range_lookup_inside by lia. f_equal. lia.
Qed.

Lemma twoOptSwap_lookup_outside tour i j k :
  i ≤ j → j < length tour → k < i ∨ j < k →
  twoOptSwap tour i j !! k = tour !! k.
Proof.
  intros Hij Hj [Hk|Hk]; unfold twoOptSwap; simpl.
  - apply reverse_range_lookup_before; lia.
  - apply reverse_range_lookup_after; lia.
Qed.

Lemma twoOptSwap_Permutation tour i j : i ≤ j → twoOptSwap tour i j ≡ₚ tour.
Proof. intros. unfold twoOptSwap. apply reverse_range_Permutation. lia. Qed.

Lemma edge_twoOptSwap_outside tour i j k :
  1 ≤ i → i < j → j < length tour → k < length tour →
  k < i - 1 ∨ j < k →
  edge (twoOptSwap tour i j) k = edge tour k.
Proof.
  intros Hi Hij Hj Hk Hout. unfold edge.
  rewrite length_twoOptSwap by lia.
  rewrite (twoOptSwap_lookup_outside tour i j k) by lia.
  rewrite (twoOptSwap_lookup_outside tour i j ((k + 1) mod length tour)); [done|lia|lia|].
  destruct (decide (k + 1 = length tour)) as [->|Hne].
  - rewrite Nat.Div0.mod_same. lia.
  - rewrite Nat.mod_small by lia. lia.
Qed.

Lemma edge_twoOptSwap_entry tour i j :
  1 ≤ i → i < j → j < length tour →
  edge (twoOptSwap tour i j) (i - 1)
  = (a ← tour !! (i - 1); b ← tour !! j; Some (a, b)).
Proof.
  intros Hi Hij Hj. unfold edge.
  rewrite length_twoOptSwap by lia.
  rewrite (twoOptSwap_lookup_outside tour i j (i - 1)) by lia.
  replace (i - 1 + 1) with i by lia. rewrite Nat.mod_small by lia.
  rewrite (twoOptSwap_lookup_inside tour i j i) by lia.
  by replace (i + j - i) with j by lia.
Qed.

Lemma edge_twoOptSwap_exit tour i j :
  1 ≤ i → i < j → j < length tour →
  edge (twoOptSwap tour i j) j
  = (a ← tour !! i; b ← tour !! ((j + 1) mod length tour); Some (a, b)).
Proof.
  intros Hi Hij Hj. unfold edge.
  rewrite length_twoOptSwap by lia.
  rewrite (twoOptSwap_lookup_inside tour i j j) by lia.
  replace (i + j - j) with i by lia.
  rewrite (twoOptSwap_lookup_outside tour i j ((j + 1) mod length tour)); [done|lia|lia|].
  destruct (decide (j + 1 = length tour)) as [->|Hne].
  - rewrite Nat.Div0.mod_same. lia.
  - rewrite Nat.mod_small by lia. lia.
Qed.

Lemma edge_twoOptSwap_inside tour i j k :
  1 ≤ i → i ≤ k → k < j → j < length tour →
  edge (twoOptSwap tour i j) k = prod_swap <$> edge tour (i + j - 1 - k).
Proof.
  intros Hi Hik Hkj Hj. unfold edge.
  rewrite length_twoOptSwap by lia.
  rewrite (Nat.mod_small (k + 1)) by lia.
  rewrite (Nat.mod_small (i + j - 1 - k + 1)) by lia.
  rewrite !twoOptSwap_lookup_inside by lia.
  replace (i + j - 1 - k + 1) with (i + j - k) by lia.
  replace (i + j - (k + 1)) with (i + j - 1 - k) by lia.
  destruct (tour !! (i + j - k)), (tour !! (i + j - 1 - k)); done.
Qed.

Lemma undirected_swap e : undirected (prod_swap e) = undirected e.
Proof.
  destruct e as [a b]. unfold undirected. simpl.
  destruct (Z.leb_spec b a), (Z.leb_spec a b); try done; try lia.
  f_equal; lia.
Qed.

Lemma seq_mirror i m :
  (λ k, i + (i + m) - 1 - k) <$> seq i m = reverse (seq i m).
Proof.
  apply list_eq. intros k. rewrite list_lookup_fmap.
  destruct (decide (k < m)) as [Hk|Hk].
  - rewrite reverse_lookup by (rewrite length_seq; lia).
    rewrite length_seq, !lookup_seq_lt by lia. simpl. f_equal. lia.
  - rewrite lookup_seq_ge by lia. symmetry. apply lookup_ge_None_2.
    rewrite length_reverse, length_seq. lia.
Qed.

Lemma omap_ext_elem {A B} (f g : A → option B) (l : list A) :
  (∀ x, x ∈ l → f x = g x) → omap f l = omap g l.
Proof.
  intros Hfg. apply list_omap_ext. apply Forall2_same_length_lookup_2; [done|].
  intros k x y Hx Hy. assert (x = y) as -> by congruence.
  apply Hfg. by eapply list_elem_of_lookup_2.
Qed.

Lemma omap_fmap_compose {A B C} (f : B → option C) (g : A → B) (l : list A) :
  omap f (g <$> l) = omap (f ∘ g) l.
Proof. induction l as [|x l IH]; [done|]. csimpl. by rewrite IH. Qed.

Lemma positions_split n i j :
  1 ≤ i → i < j → j < n →
  seq 0 n = seq 0 (i - 1) ++ [i - 1] ++ seq i (j - i) ++ [j] ++ seq (S j) (n - S j).
Proof.
  intros Hi Hij Hj.
  replace n with ((i - 1) + (1 + ((j - i) + (1 + (n - S j))))) at 1 by lia.
  rewrite !seq_app. simpl.
  replace (i - 1 + 1) with i by lia.
  replace (i + (j - i)) with j by lia.
  by replace (j + 1) with (S j) by lia.
Qed.

Lemma inner_edges_twoOptSwap tour i j :
  1 ≤ i → i < j → j < length tour →
  undirected <$> omap (edge (twoOptSwap tour i j)) (seq i (j - i))
  ≡ₚ undirected <$> omap (edge tour) (seq i (j - i)).
Proof.
  intros Hi Hij Hj.
  rewrite (omap_ext_elem _ (λ k, prod_swap <$> edge tour (i + (i + (j - i)) - 1 - k))).
  - rewrite <- (list_fmap_omap (edge tour ∘ (λ k, i + (i + (j - i)) - 1 - k)) prod_swap).
    rewrite <- (omap_fmap_compose (edge tour)), seq_mirror.
    rewrite <- list_fmap_compose.
    rewrite (list_fmap_ext (undirected ∘ prod_swap) undirected)
      by (intros; apply undirected_swap).
    by rewrite reverse_Permutation.
  - intros k [Hk1 Hk2]%elem_of_seq.
    rewrite edge_twoOptSwap_inside by lia. do 2 f_equal. lia.
Qed.

Lemma cycle_edges_twoOptSwap tour i j :
  1 ≤ i → i < j → j < length tour →
  undirected <$> (cycle_edges (twoOptSwap tour i j) ++ omap (edge tour) [i - 1; j])
  ≡ₚ undirected <$> (cycle_edges tour ++ omap (edge (twoOptSwap tour i j)) [i - 1; j]).
Proof.
  intros Hi Hij Hj. unfold cycle_edges.
  rewrite length_twoOptSwap by lia.
  rewrite (positions_split (length tour) i j) by lia.
  rewrite !omap_app, !fmap_app.
  rewrite (inner_edges_twoOptSwap tour i j) by lia.
  rewrite (omap_ext_elem (edge (twoOptSwap tour i j)) (edge tour) (seq 0 (i - 1))).
  2:{ intros k [_ Hk]%elem_of_seq. apply edge_twoOptSwap_outside; lia. }
  rewrite (omap_ext_elem (edge (twoOptSwap tour i j)) (edge tour) (seq (S j) _)).
  2:{ intros k [Hk1 Hk2]%elem_of_seq. apply edge_twoOptSwap_outside; lia. }
  replace [i - 1; j] with ([i - 1] ++ [j]) by done.
  rewrite !omap_app, !fmap_app.
  solve_Permutation.
Qed.

(** C2. For [1 ≤ i < j ≤ N-1], [twoOptSwap] returns the tour with the cells
    of positions [i .. j] in reverse order and every other cell, position 0
    among them, where it was.  The edge into the segment becomes
    [(tour[i-1], tour[j])], the edge out of it
    [(tour[i], tour[(j+1) mod N])]; the edges outside the segment are the
    same at the same place; each of the [j - i] edges inside the segment
    is replaced by the same two nodes in the opposite direction (the new
    edge at position [k] is the old edge at position [i + j - 1 - k]
    turned round).  Only as unordered pairs are the edges of the new
    cycle those of the old one with [(tour[i-1], tour[i])] and
    [(tour[j], tour[(j+1) mod N])] replaced by the two new ones. *)
Theorem twoOptSwap_reverses_segment tour i j :
  1 ≤ i → i < j → j ≤ length tour - 1 →
  let n := length tour in
  let newTour := twoOptSwap tour i j in
  length newTour = n
  ∧ (∀ k, i ≤ k ≤ j → newTour !! k = tour !! (i + j - k))
  ∧ (∀ k, k < i ∨ j < k → newTour !! k = tour !! k)
  ∧ newTour !! 0 = tour !! 0
  ∧ edge tour (i - 1) = (a ← tour !! (i - 1); b ← tour !! i; Some (a, b))
  ∧ edge tour j = (a ← tour !! j; b ← tour !! ((j + 1) mod n); Some (a, b))
  ∧ edge newTour (i - 1) = (a ← tour !! (i - 1); b ← tour !! j; Some (a, b))
  ∧ edge newTour j = (a ← tour !! i; b ← tour !! ((j + 1) mod n); Some (a, b))
  ∧ (∀ k, k < n → k < i - 1 ∨ j < k → edge newTour k = edge tour k)
  ∧ (∀ k, i ≤ k < j → edge newTour k = prod_swap <$> edge tour (i + j - 1 - k))
  ∧ undirected <$> (cycle_edges newTour ++ omap (edge tour) [i - 1; j])
    ≡ₚ undirected <$> (cycle_edges tour ++ omap (edge newTour) [i - 1; j]).
Proof.
  intros Hi Hij Hj n newTour. subst n newTour.
  assert (j < length tour) by lia.
  split; [apply length_twoOptSwap; lia|].
  split; [intros k [? ?]; apply twoOptSwap_lookup_inside; lia|].
  split; [intros k ?; apply twoOptSwap_lookup_outside; lia|].
  split; [apply twoOptSwap_lookup_outside; lia|].
  split.
  { unfold edge. replace (i - 1 + 1) with i by lia.
    by rewrite Nat.mod_small by lia. }
  split; [done|].
  split; [apply edge_twoOptSwap_entry; lia|].
  split; [apply edge_twoOptSwap_exit; lia|].
  split; [intros k ? ?; apply edge_twoOptSwap_outside; lia|].
  split; [intros k [? ?]; apply edge_twoOptSwap_inside; lia|].
  apply cycle_edges_twoOptSwap; lia.
Qed.

(** ** The neighbourhood scan *)

Lemma inner_loop_linear adj tour len i todo j :
  inner_loop adj tour len i todo j
  = first_improvement adj tour len ((λ j', (i, j')) <$> seq j todo).
Proof.
  revert j. induction todo as [|todo IH]; intros j; [done|].
  simpl. destruct (calculateTourLength adj (twoOptSwap tour i j)) as [l|]; [|done].
  simpl. destruct (Double.ltb l len); [done|]. by rewrite IH.
Qed.

Lemma first_improvement_app adj tour len ms1 ms2 :
  first_improvement adj tour len (ms1 ++ ms2)
  = '(trace, found) ← first_improvement adj tour len ms1;
    match found with
    | Some _ => Some (trace, found)
    | None =>
        '(trace', found') ← first_improvement adj tour len ms2;
        Some (trace ++ trace', found')
    end.
Proof.
  induction ms1 as [|m ms1 IH]; simpl.
  - by destruct (first_improvement adj tour len ms2) as [[? ?]|].
  - destruct (calculateTourLength adj (twoOptSwap tour m.1 m.2)) as [l|]; [|done].
    simpl. destruct (Double.ltb l len); [done|]. rewrite IH.
    destruct (first_improvement adj tour len ms1) as [[tr [r|]]|]; simpl; try done.
    by destruct (first_improvement adj tour len ms2) as [[? ?]|].
Qed.

Lemma outer_loop_linear adj tour len todo i :
  outer_loop adj tour len todo i
  = first_improvement adj tour len
      (i' ← seq i todo; (λ j, (i', j)) <$> seq (i' + 1) (length tour - (i' + 1))).
Proof.
  revert i. induction todo as [|todo IH]; intros i; [done|].
  simpl seq. rewrite bind_cons, first_improvement_app.
  simpl. rewrite inner_loop_linear, IH. done.
Qed.

(** The two nested loops with their two [break]s are a first-improvement
    search through the moves in lexicographic order. *)
Lemma scan_linear adj tour len :
  scan adj tour len = first_improvement adj tour len (moves (length tour)).
Proof.
  unfold scan, moves. rewrite outer_loop_linear.
  by replace (length tour - 1 - 1) with (length tour - 2) by lia.
Qed.

Lemma elem_of_moves n i j :
  (i, j) ∈ moves n ↔ 1 ≤ i ∧ i < j ∧ j ≤ n - 1.
Proof.
  unfold moves. rewrite list_elem_of_bind. split.
  - intros (i' & Hin & Hi'). apply list_elem_of_fmap in Hin as (j' & Heq & Hj').
    injection Heq as -> ->. apply elem_of_seq in Hi', Hj'. lia.
  - intros (Hi & Hij & Hj). exists i. split.
    + apply list_elem_of_fmap. exists j. split; [done|]. apply elem_of_seq. lia.
    + apply elem_of_seq. lia.
Qed.

Lemma seq_StronglySorted a m : StronglySorted lt (seq a m).
Proof.
  revert a. induction m as [|m IH]; intros a; simpl; constructor; [apply IH|].
  apply List.Forall_forall. intros x Hx. apply list_elem_of_In, elem_of_seq in Hx. lia.
Qed.

Lemma moves_from_StronglySorted n a m :
  StronglySorted lex_lt
    (i ← seq a m; (λ j, (i, j)) <$> seq (i + 1) (n - (i + 1))).
Proof.
  revert a. induction m as [|m IH]; intros a; [constructor|].
  simpl seq. rewrite bind_cons. apply StronglySorted_app_2; [| |apply IH].
  - intros [i1 j1] [i2 j2] H1 H2.
    apply list_elem_of_fmap in H1 as (? & Heq & _). injection Heq as -> ->.
    apply list_elem_of_bind in H2 as (i' & Hin & Hi').
    apply list_elem_of_fmap in Hin as (? & Heq & _). injection Heq as -> ->.
    apply elem_of_seq in Hi'. left. simpl. lia.
  - eapply StronglySorted_fmap; [|apply seq_StronglySorted].
    intros x y Hxy. right. simpl. done.
Qed.

Lemma moves_StronglySorted n : StronglySorted lex_lt (moves n).
Proof. apply moves_from_StronglySorted. Qed.

Lemma calculateTourLength_defined adj tour :
  valid_matrix adj → is_tour (length adj) tour →
  is_Some (calculateTourLength adj tour).
Proof.
  intros Hv Ht. unfold calculateTourLength.
  destruct (length_loop_sum adj tour (length tour) 0 Double.zero Hv Ht)
    as (costs & _ & _ & ->); [lia|]. eauto.
Qed.

Lemma is_tour_twoOptSwap n tour i j :
  i ≤ j → is_tour n tour → is_tour n (twoOptSwap tour i j).
Proof. intros Hij Ht. unfold is_tour. by rewrite twoOptSwap_Permutation. Qed.

Lemma improving_ltb adj tour len m l :
  calculateTourLength adj (twoOptSwap tour m.1 m.2) = Some l →
  improving adj tour len m ↔ Double.ltb l len = true.
Proof.
  intros Hl. unfold improving. rewrite Hl. simpl. split; congruence.
Qed.

Lemma first_improvement_find adj tour len ms :
  (∀ m, m ∈ ms → is_Some (calculateTourLength adj (twoOptSwap tour m.1 m.2))) →
  match list_find (improving adj tour len) ms with
  | Some (k, m) =>
      ∃ l, calculateTourLength adj (twoOptSwap tour m.1 m.2) = Some l
           ∧ Double.ltb l len = true
           ∧ first_improvement adj tour len ms
             = Some (take (S k) ms, Some (twoOptSwap tour m.1 m.2, l))
  | None => first_improvement adj tour len ms = Some (ms, None)
  end.
Proof.
  induction ms as [|m ms IH]; intros Hdef; [done|].
  destruct (Hdef m) as [l Hl]; [by left|].
  simpl. rewrite Hl. simpl.
  destruct (decide (improving adj tour len m)) as [Himp|Himp].
  - rewrite (improving_ltb _ _ _ _ _ Hl) in Himp.
    exists l. rewrite Himp. by rewrite take_0.
  - rewrite (improving_ltb _ _ _ _ _ Hl) in Himp.
    apply not_true_is_false in Himp. rewrite Himp.
    specialize (IH (λ m' Hm', Hdef m' (list_elem_of_further _ _ _ Hm'))).
    destruct (list_find (improving adj tour len) ms) as [[k m']|]; simpl.
    + destruct IH as (l' & Hl' & Hlt & ->). by exists l'.
    + by rewrite IH.
Qed.

Lemma moves_defined adj tour m :
  valid_matrix adj → is_tour (length adj) tour → m ∈ moves (length tour) →
  is_Some (calculateTourLength adj (twoOptSwap tour m.1 m.2)).
Proof.
  intros Hv Ht Hm. destruct m as [i j]. apply elem_of_moves in Hm.
  apply calculateTourLength_defined; [done|].
  apply is_tour_twoOptSwap; [simpl; lia | done].
Qed.

(** C3. One pass of the neighbourhood scan goes through the pairs
    [(i, j)], [1 ≤ i < j ≤ N-1], in lexicographic order ([i] from 1 to
    [N-2], [j] from [i+1] to [N-1]), computes the full length of each
    reversed-segment tour, and stops at the first pair whose tour is
    strictly shorter than the current one: the pairs evaluated are exactly
    those up to and including that pair, and that pair's tour and length
    are what the iteration of the hill climb goes on with.  When no pair
    is strictly shorter every pair is evaluated and the climb ends. *)
Theorem scan_first_improvement adj tour len :
  valid_matrix adj → is_tour (length adj) tour →
  let ms := moves (length tour) in
  (∀ i j, (i, j) ∈ ms ↔ 1 ≤ i ∧ i < j ∧ j ≤ length tour - 1)
  ∧ StronglySorted lex_lt ms
  ∧ match list_find (improving adj tour len) ms with
    | Some (k, (i, j)) =>
        ∃ l, calculateTourLength adj (twoOptSwap tour i j) = Some l
             ∧ Double.ltb l len = true
             ∧ scan adj tour len = Some (take (S k) ms, Some (twoOptSwap tour i j, l))
             ∧ ∀ todo, climb_loop adj (S todo) tour len
                 = (c ← climb_loop adj todo (twoOptSwap tour i j) l;
                    Some (MkClimb (final_tour c) (final_length c) (exit c)
                                  (l :: observed c)))
    | None =>
        scan adj tour len = Some (ms, None)
        ∧ ∀ todo, climb_loop adj (S todo) tour len
            = Some (MkClimb tour len Converged [len])
    end.
Proof.
  intros Hv Ht ms.
  split; [intros i j; apply elem_of_moves|].
  split; [apply moves_StronglySorted|].
  pose proof (first_improvement_find adj tour len ms
                (λ m, moves_defined adj tour m Hv Ht)) as Hfind.
  rewrite <- scan_linear in Hfind.
  destruct (list_find (improving adj tour len) ms) as [[k [i j]]|].
  - destruct Hfind as (l & Hl & Hlt & Hscan). exists l.
    split; [done|]. split; [done|]. split; [done|].
    intros todo. simpl. rewrite Hscan. done.
  - split; [done|]. intros todo. simpl. rewrite Hfind. done.
Qed.

(** What a pass returns, in terms of the current tour. *)
Lemma scan_result adj tour len :
  valid_matrix adj → is_tour (length adj) tour →
  ∃ trace found, scan adj tour len = Some (trace, found)
    ∧ match found with
      | Some (newTour, newLength) =>
          ∃ i j, 1 ≤ i ∧ i < j ∧ j ≤ length tour - 1
                 ∧ newTour = twoOptSwap tour i j
                 ∧ calculateTourLength adj newTour = Some newLength
                 ∧ Double.ltb newLength len = true
      | None => local_optimum adj tour len
      end.
Proof.
  intros Hv Ht.
  pose proof (first_improvement_find adj tour len (moves (length tour))
                (λ m, moves_defined adj tour m Hv Ht)) as Hfind.
  rewrite <- scan_linear in Hfind.
  destruct (list_find (improving adj tour len) (moves (length tour)))
    as [[k [i j]]|] eqn:Hlf.
  - destruct Hfind as (l & Hl & Hlt & Hscan).
    apply list_find_Some in Hlf as (Hk & _ & _).
    apply list_elem_of_lookup_2, elem_of_moves in Hk.
    eexists _, _. split; [exact Hscan|]. exists i, j. simpl in *.
    repeat split; try done; lia.
  - eexists _, _. split; [exact Hfind|].
    intros i j Hi Hij Hj.
    assert (Hm : (i, j) ∈ moves (length tour)) by (apply elem_of_moves; lia).
    destruct (moves_defined adj tour (i, j) Hv Ht Hm) as [l Hl].
    exists l. split; [done|].
    rewrite list_find_None, Forall_forall in Hlf. specialize (Hlf _ Hm).
    rewrite (improving_ltb _ _ _ (i, j) l Hl) in Hlf.
    by apply not_true_is_false.
Qed.

(** ** The hill climb *)

Lemma below_or_same_refl x : below_or_same x x.
Proof. by right. Qed.

Lemma below_or_same_trans x y z :
  below_or_same x y → below_or_same y z → below_or_same x z.
Proof.
  intros [Hxy| ->] [Hyz| ->]; unfold below_or_same; eauto using ltb_trans.
Qed.

Lemma non_increasing_cons x y l :
  below_or_same y x → non_increasing (y :: l) → non_increasing (x :: y :: l).
Proof.
  intros Hyx Hl [|k] a b Ha Hb; simpl in *.
  - by simplify_eq.
  - by eapply Hl.
Qed.

Lemma non_increasing_singleton x : non_increasing [x].
Proof. intros [|k] a b Ha Hb; simpl in *; simplify_eq. Qed.

(** The invariant of the [for iter] loop, and what holds when it is left. *)
Lemma climb_loop_spec adj todo tour len :
  valid_matrix adj → is_tour (length adj) tour →
  calculateTourLength adj tour = Some len →
  ∃ c, climb_loop adj todo tour len = Some c
    ∧ is_tour (length adj) (final_tour c)
    ∧ final_tour c !! 0 = tour !! 0
    ∧ calculateTourLength adj (final_tour c) = Some (final_length c)
    ∧ non_increasing (len :: observed c)
    ∧ last (len :: observed c) = Some (final_length c)
    ∧ length (observed c) ≤ todo
    ∧ below_or_same (final_length c) len
    ∧ (exit c = Converged → local_optimum adj (final_tour c) (final_length c))
    ∧ (exit c = CapReached → length (observed c) = todo).
Proof.
  intros Hv. revert tour len.
  induction todo as [|todo IH]; intros tour len Ht Hlen.
  - eexists. split; [done|]. simpl.
    repeat split; try done; auto using non_increasing_singleton, below_or_same_refl.
  - destruct (scan_result adj tour len Hv Ht) as (trace & found & Hscan & Hfound).
    simpl. rewrite Hscan. simpl. destruct found as [[newTour newLength]|].
    + destruct Hfound as (i & j & Hi & Hij & Hj & -> & Hnew & Hlt).
      destruct (IH (twoOptSwap tour i j) newLength) as
        (c & -> & Hc1 & Hc2 & Hc3 & Hc4 & Hc5 & Hc6 & Hc7 & Hc8 & Hc9);
        [apply is_tour_twoOptSwap; [lia|done] | done |].
      eexists. split; [done|]. simpl.
      split; [done|].
      split.
      { rewrite Hc2. apply twoOptSwap_lookup_outside; lia. }
      split; [done|].
      split; [apply non_increasing_cons; [by left|done]|].
      split; [done|].
      split; [lia|].
      split; [eapply below_or_same_trans; [done|by left]|].
      split; [done|]. intros ?. f_equal. auto.
    + eexists. split; [done|]. simpl.
      repeat split; try done; try lia; auto using below_or_same_refl.
      apply non_increasing_cons;
        auto using non_increasing_singleton, below_or_same_refl.
Qed.

Lemma below_or_same_leb x y :
  below_or_same x y → Double.is_nan y = false → SFleb x y = true.
Proof.
  intros [Hlt| ->] Hy; [by apply ltb_leb|].
  unfold SFleb. by rewrite SFcompare_refl.
Qed.

Section HillClimbProperties.

Context `{RandomEngine}.

(** The first tour of a run: a permutation with node 0 in front. *)
Lemma generateRandomTour_anchored adj gen :
  valid_matrix adj →
  anchored_tour (length adj) (generateRandomTour adj gen).1.
Proof.
  intros [Hpos _]%valid_matrix_inv. unfold generateRandomTour, anchored_tour, is_tour, iota.
  rewrite seqZ_cons by lia.
  pose proof (shuffle_Permutation (seqZ (Z.succ 0) (Z.pred (Z.of_nat (length adj)))) gen) as Hp.
  destruct (shuffle _ gen) as [rest' gen']. simpl in *.
  split; [|done]. by rewrite Hp.
Qed.

(** [hillClimb] returns on every loaded matrix; what it returns. *)
Lemma hillClimb_run_spec adj numIterations gen :
  valid_matrix adj →
  ∃ c len0,
    hillClimb_run adj numIterations gen = Some (c, (generateRandomTour adj gen).2)
    ∧ calculateTourLength adj (generateRandomTour adj gen).1 = Some len0
    ∧ anchored_tour (length adj) (final_tour c)
    ∧ calculateTourLength adj (final_tour c) = Some (final_length c)
    ∧ non_increasing (len0 :: observed c)
    ∧ last (len0 :: observed c) = Some (final_length c)
    ∧ length (observed c) ≤ Z.to_nat numIterations
    ∧ below_or_same (final_length c) len0
    ∧ (exit c = Converged → local_optimum adj (final_tour c) (final_length c))
    ∧ (exit c = CapReached → length (observed c) = Z.to_nat numIterations).
Proof.
  intros Hv. unfold hillClimb_run.
  pose proof (generateRandomTour_anchored adj gen Hv) as [Ht H0].
  destruct (generateRandomTour adj gen) as [tour gen']. simpl in *.
  destruct (calculateTourLength_defined adj tour Hv Ht) as [len0 Hlen0].
  destruct (climb_loop_spec adj (Z.to_nat numIterations) tour len0 Hv Ht Hlen0)
    as (c & Hc & Hc1 & Hc2 & Hc3 & Hc4 & Hc5 & Hc6 & Hc7 & Hc8 & Hc9).
  exists c, len0. rewrite Hlen0. simpl. rewrite Hc. simpl.
  unfold anchored_tour. rewrite Hc2. done.
Qed.

(** C4. A run of [hillClimb] on a loaded matrix returns, and when it was
    left by convergence (a full pass found no improving move) the
    returned tour is a 2-opt local optimum: for every pair
    [1 ≤ i < j ≤ N-1] the tour with the segment [i .. j] reversed is not
    strictly shorter than the returned length, which is the length of
    the returned tour. *)
Theorem hillClimb_converged_local_optimum adj numIterations gen :
  valid_matrix adj →
  ∃ c gen', hillClimb_run adj numIterations gen = Some (c, gen')
    ∧ hillClimb adj numIterations gen
      = Some ((final_tour c, final_length c), gen')
    ∧ calculateTourLength adj (final_tour c) = Some (final_length c)
    ∧ (exit c = Converged →
       ∀ i j, 1 ≤ i → i < j → j ≤ length (final_tour c) - 1 →
         ∃ l, calculateTourLength adj (twoOptSwap (final_tour c) i j) = Some l
              ∧ Double.ltb l (final_length c) = false).
Proof.
  intros Hv.
  destruct (hillClimb_run_spec adj numIterations gen Hv)
    as (c & len0 & Hrun & _ & _ & Hlen & _ & _ & _ & _ & Hopt & _).
  exists c, (generateRandomTour adj gen).2.
  split; [done|]. split; [unfold hillClimb; by rewrite Hrun|].
  split; [done|]. exact Hopt.
Qed.

(** C5. In a run of [hillClimb], for every iteration cap, the lengths of
    the current tour at the end of the iterations, with the length of the
    random initial tour in front, never go up from one to the next, and
    the last of them is the length returned; so the length returned is
    below or the same as the length of the initial tour.  On a matrix
    without negative cells or NaNs no length is a NaN, and the length
    returned is [<=] the initial one in IEEE arithmetic. *)
Theorem hillClimb_lengths_non_increasing adj numIterations gen :
  valid_matrix adj →
  ∃ c gen' len0,
    hillClimb_run adj numIterations gen = Some (c, gen')
    ∧ calculateTourLength adj (generateRandomTour adj gen).1 = Some len0
    ∧ non_increasing (len0 :: observed c)
    ∧ last (len0 :: observed c) = Some (final_length c)
    ∧ below_or_same (final_length c) len0
    ∧ (Double.is_nan len0 = false → SFleb (final_length c) len0 = true)
    ∧ (matrix_nonneg adj = true →
       Double.nonneg (final_length c) = true
       ∧ SFleb (final_length c) len0 = true).
Proof.
  intros Hv.
  destruct (hillClimb_run_spec adj numIterations gen Hv)
    as (c & len0 & Hrun & Hlen0 & _ & Hlen & Hmono & Hlast & _ & Hle & _).
  exists c, (generateRandomTour adj gen).2, len0.
  repeat split; try done.
  - by apply below_or_same_leb.
  - by eapply calculateTourLength_nonneg.
  - apply below_or_same_leb; [done|].
    by eapply nonneg_not_nan, calculateTourLength_nonneg.
Qed.

End HillClimbProperties.

(** ** The reduction over the runs *)

Lemma reduce_cons best r rs :
  reduce best (r :: rs) = reduce (keep_best best r) rs.
Proof. done. Qed.

(** No run is strictly below the starting value: it is what comes out. *)
Lemma reduce_none best rs :
  (∀ r, r ∈ rs → Double.ltb r.2 best.2 = false) → reduce best rs = best.
Proof.
  induction rs as [|r rs IH]; intros Hrs; [done|].
  rewrite reduce_cons. unfold keep_best.
  rewrite (Hrs r) by left. apply IH. intros r' Hr'. apply Hrs. by right.
Qed.

(** What comes out is the starting value or strictly below it. *)
Lemma reduce_below best rs :
  reduce best rs = best ∨ Double.ltb (reduce best rs).2 best.2 = true.
Proof.
  revert best. induction rs as [|r rs IH]; intros best; [by left|].
  rewrite reduce_cons. unfold keep_best.
  destruct (Double.ltb r.2 best.2) eqn:Hr; [|apply IH].
  right. destruct (IH r) as [-> | Hlt]; [done|]. by eapply ltb_trans.
Qed.

(** Some run is strictly below the starting value: the first run of
    minimal length comes out. *)
Lemma reduce_first_minimum best rs :
  (∃ r, r ∈ rs ∧ Double.ltb r.2 best.2 = true) →
  ∃ k r, rs !! k = Some r ∧ reduce best rs = r
    ∧ Double.ltb r.2 best.2 = true
    ∧ (∀ r', r' ∈ rs → Double.ltb r'.2 r.2 = false)
    ∧ (∀ k' r', k' < k → rs !! k' = Some r' → SFleb r'.2 r.2 = false).
Proof.
  revert best. induction rs as [|x rs IH]; intros best (r0 & Hin & Hr0).
  { by apply elem_of_nil in Hin. }
  rewrite reduce_cons. unfold keep_best.
  destruct (Double.ltb x.2 best.2) eqn:Hx.
  - destruct (decide (Exists (λ r, Double.ltb r.2 x.2 = true) rs)) as [Hex|Hno];
      rewrite Exists_exists in *.
    + destruct (IH x Hex) as (k & r & Hk & Hred & Hlt & Hmin & Hfirst).
      exists (S k), r. split; [done|]. split; [done|].
      split; [by eapply ltb_trans|]. split.
      * intros r' [->|Hr']%elem_of_cons; [by apply ltb_asym | by apply Hmin].
      * intros [|k'] r' Hk' Hr'; simpl in Hr'.
        -- simplify_eq. by apply ltb_not_leb.
        -- eapply Hfirst; [|done]. lia.
    + exists 0, x. split; [done|].
      assert (Hall : ∀ r, r ∈ rs → Double.ltb r.2 x.2 = false).
      { intros r Hr. apply not_true_is_false. intros Hlt. apply Hno. eauto. }
      split; [by apply reduce_none|]. split; [done|]. split; [|intros; lia].
      intros r' [->|Hr']%elem_of_cons; [apply ltb_irrefl | by apply Hall].
  - assert (Hex : ∃ r, r ∈ rs ∧ Double.ltb r.2 best.2 = true).
    { apply elem_of_cons in Hin as [->|Hin]; [congruence | eauto]. }
    destruct (IH best Hex) as (k & r & Hk & Hred & Hlt & Hmin & Hfirst).
    exists (S k), r. split; [done|]. split; [done|]. split; [done|]. split.
    + intros r' [->|Hr']%elem_of_cons; [|by apply Hmin].
      apply not_true_is_false. intros Hxr.
      by rewrite (ltb_trans _ _ _ Hxr Hlt) in Hx.
    + intros [|k'] r' Hk' Hr'; simpl in Hr'.
      * simplify_eq. apply not_true_is_false. intros Hle.
        by rewrite (leb_ltb_trans _ _ _ Hle Hlt) in Hx.
      * eapply Hfirst; [|done]. lia.
Qed.

Lemma reduce_elem best rs : reduce best rs = best ∨ reduce best rs ∈ rs.
Proof.
  revert best. induction rs as [|r rs IH]; intros best; [by left|].
  rewrite reduce_cons. unfold keep_best.
  destruct (Double.ltb r.2 best.2).
  - right. destruct (IH r) as [-> | Hin]; [by left | by right].
  - destruct (IH best) as [-> | Hin]; [by left | right; by right].
Qed.

Section ShotgunProperties.

Context `{RandomEngine}.

Lemma hillClimb_spec adj numIterations gen :
  valid_matrix adj →
  ∃ tour len,
    hillClimb adj numIterations gen
    = Some ((tour, len), (generateRandomTour adj gen).2)
    ∧ anchored_tour (length adj) tour
    ∧ calculateTourLength adj tour = Some len.
Proof.
  intros Hv.
  destruct (hillClimb_run_spec adj numIterations gen Hv)
    as (c & len0 & Hrun & _ & Ht & Hlen & _).
  exists (final_tour c), (final_length c).
  unfold hillClimb. by rewrite Hrun.
Qed.

(** The restart loop runs the hill climbs one after the other on the
    same engine and reduces their results as they come. *)
Lemma restart_loop_reduce adj numIterations todo best gen :
  restart_loop adj numIterations todo best gen
  = '(rs, gen') ← runs adj numIterations todo gen;
    Some (reduce best rs, gen').
Proof.
  revert best gen. induction todo as [|todo IH]; intros best gen; [done|].
  simpl. destruct (hillClimb adj numIterations gen) as [[current gen']|]; [|done].
  simpl. rewrite IH.
  by destruct (runs adj numIterations todo gen') as [[rs gen'']|].
Qed.

Lemma worker_loop_restart_loop adj numIterations todo best gen :
  worker_loop adj numIterations todo best gen
  = restart_loop adj numIterations todo best gen.
Proof.
  revert best gen. induction todo as [|todo IH]; intros best gen; [done|].
  simpl. destruct (hillClimb adj numIterations gen) as [[current gen']|]; [|done].
  simpl. by rewrite IH.
Qed.

(** Every restart returns, with a tour and its length. *)
Lemma runs_spec adj numIterations todo gen :
  valid_matrix adj →
  ∃ rs gen', runs adj numIterations todo gen = Some (rs, gen')
    ∧ length rs = todo
    ∧ ∀ r, r ∈ rs →
        anchored_tour (length adj) r.1
        ∧ calculateTourLength adj r.1 = Some r.2.
Proof.
  intros Hv. revert gen. induction todo as [|todo IH]; intros gen.
  - exists [], gen. split; [done|]. split; [done|].
    intros r Hr. by apply elem_of_nil in Hr.
  - destruct (hillClimb_spec adj numIterations gen Hv) as (tour & len & Hrun & Ht & Hlen).
    destruct (IH (generateRandomTour adj gen).2) as (rs & gen' & Hruns & Hn & Hall).
    exists ((tour, len) :: rs), gen'. simpl. rewrite Hrun. simpl.
    rewrite Hruns. simpl. split; [done|]. split; [by rewrite Hn|].
    intros r [->|Hr]%elem_of_cons; [done | by apply Hall].
Qed.

(** The sequential solver on a loaded matrix: it returns; when no run is
    strictly below [max()] it returns the empty vector it started with,
    otherwise the first run of minimal length. *)
Lemma shotgunHillClimbing_spec adj numIterations numRestarts gen :
  valid_matrix adj →
  ∃ rs gen',
    runs adj numIterations (Z.to_nat numRestarts) gen = Some (rs, gen')
    ∧ length rs = Z.to_nat numRestarts
    ∧ (∀ r, r ∈ rs → anchored_tour (length adj) r.1
                      ∧ calculateTourLength adj r.1 = Some r.2)
    ∧ shotgunHillClimbing adj numIterations numRestarts gen
      = Some (reduce no_best rs, gen')
    ∧ ((∀ r, r ∈ rs → Double.ltb r.2 Double.max = false) →
       reduce no_best rs = no_best)
    ∧ ((∃ r, r ∈ rs ∧ Double.ltb r.2 Double.max = true) →
       ∃ k r, rs !! k = Some r ∧ reduce no_best rs = r
         ∧ (∀ r', r' ∈ rs → Double.ltb r'.2 r.2 = false)
         ∧ (∀ k' r', k' < k → rs !! k' = Some r' → SFleb r'.2 r.2 = false)).
Proof.
  intros Hv.
  destruct (runs_spec adj numIterations (Z.to_nat numRestarts) gen Hv)
    as (rs & gen' & Hruns & Hn & Hall).
  exists rs, gen'. split; [done|]. split; [done|]. split; [done|].
  split. { unfold shotgunHillClimbing. by rewrite restart_loop_reduce, Hruns. }
  split; [apply (reduce_none no_best)|].
  intros Hex. destruct (reduce_first_minimum no_best rs Hex)
    as (k & r & Hk & Hred & _ & Hmin & Hfirst).
  by exists k, r.
Qed.

(** The solver returns the empty vector it started with or one of the
    runs; a run is a tour with node 0 in front and comes with its own
    length, so that [main] then prints the best length. *)
Lemma solveTSP_spec adj numIterations numRestarts gen :
  valid_matrix adj →
  ∃ best gen',
    shotgunHillClimbing adj numIterations numRestarts gen = Some (best, gen')
    ∧ solveTSP adj numIterations numRestarts gen = Some best.1
    ∧ (best = no_best
       ∨ (anchored_tour (length adj) best.1
          ∧ calculateTourLength adj best.1 = Some best.2
          ∧ Double.ltb best.2 Double.max = true)).
Proof.
  intros Hv.
  destruct (shotgunHillClimbing_spec adj numIterations numRestarts gen Hv)
    as (rs & gen' & _ & _ & Hall & Hs & _).
  exists (reduce no_best rs), gen'. split; [done|].
  split; [unfold solveTSP; by rewrite Hs|].
  destruct (reduce_elem no_best rs) as [Heq|Hin]; [by left|].
  destruct (reduce_below no_best rs) as [Heq|Hlt]; [by left|].
  right. destruct (Hall _ Hin) as [? ?]. done.
Qed.

Lemma main_spec adj numIterations numRestarts seed :
  valid_matrix adj →
  ∃ best gen',
    shotgunHillClimbing adj numIterations numRestarts
      (seed_engine (to_unsigned seed)) = Some (best, gen')
    ∧ (best = no_best
       ∧ main adj numIterations numRestarts seed = Some ([], Double.zero)
       ∨ anchored_tour (length adj) best.1
         ∧ main adj numIterations numRestarts seed = Some best).
Proof.
  intros Hv.
  destruct (solveTSP_spec adj numIterations numRestarts
              (seed_engine (to_unsigned seed)) Hv)
    as (best & gen' & Hs & Hsolve & Hbest).
  exists best, gen'. split; [done|]. unfold main. rewrite Hsolve. simpl.
  destruct Hbest as [-> | (Ht & Hlen & _)]; [by left|].
  right. split; [done|]. rewrite Hlen. simpl. by destruct best.
Qed.

End ShotgunProperties.

(** ** Instances of one or two nodes: one tour, no move *)

Lemma climb_loop_no_moves adj todo tour len :
  length tour ≤ 2 →
  ∃ e obs, climb_loop adj todo tour len = Some (MkClimb tour len e obs).
Proof.
  intros Hn. destruct todo as [|todo]; [by eexists _, _|].
  simpl. unfold scan. replace (length tour - 1 - 1) with 0 by lia.
  simpl. by eexists _, _.
Qed.

Section SmallInstances.

Context `{RandomEngine}.

Lemma generateRandomTour_small adj gen :
  1 ≤ length adj ≤ 2 → (generateRandomTour adj gen).1 = iota (length adj).
Proof.
  intros Hn. unfold generateRandomTour.
  assert (Hfix : ∀ l : list Z, length l ≤ 1 → (shuffle l gen).1 = l).
  { intros l Hl. pose proof (shuffle_Permutation l gen) as Hp.
    destruct l as [|x [|y l]]; simpl in Hl; [| |lia].
    - by apply Permutation_nil_r in Hp.
    - by apply Permutation_singleton_r in Hp. }
  assert (length adj = 1 ∨ length adj = 2) as [-> | ->] by lia.
  - change (iota 1) with [0%Z]. cbv iota beta.
    specialize (Hfix [] ltac:(simpl; lia)).
    destruct (shuffle [] gen) as [rest gen']. simpl in *. by subst.
  - change (iota 2) with [0%Z; 1%Z]. cbv iota beta.
    specialize (Hfix [1%Z] ltac:(simpl; lia)).
    destruct (shuffle [1%Z] gen) as [rest gen']. simpl in *. by subst.
Qed.

Lemma hillClimb_small adj numIterations gen len :
  1 ≤ length adj ≤ 2 →
  calculateTourLength adj (iota (length adj)) = Some len →
  hillClimb adj numIterations gen
  = Some ((iota (length adj), len), (generateRandomTour adj gen).2).
Proof.
  intros Hn Hlen. unfold hillClimb, hillClimb_run.
  pose proof (generateRandomTour_small adj gen Hn) as Ht.
  destruct (generateRandomTour adj gen) as [tour gen']. simpl in *. subst tour.
  rewrite Hlen. simpl.
  destruct (climb_loop_no_moves adj (Z.to_nat numIterations) (iota (length adj)) len)
    as (e & obs & ->); [|done].
  unfold iota. rewrite length_seqZ. lia.
Qed.

Lemma runs_small adj numIterations todo gen len :
  1 ≤ length adj ≤ 2 →
  calculateTourLength adj (iota (length adj)) = Some len →
  ∃ gen', runs adj numIterations todo gen
          = Some (replicate todo (iota (length adj), len), gen').
Proof.
  intros Hn Hlen. revert gen. induction todo as [|todo IH]; intros gen.
  - by exists gen.
  - simpl. rewrite (hillClimb_small adj numIterations gen len Hn Hlen). simpl.
    destruct (IH (generateRandomTour adj gen).2) as [gen' ->]. by exists gen'.
Qed.

Lemma shotgunHillClimbing_small adj numIterations numRestarts gen len :
  1 ≤ length adj ≤ 2 →
  calculateTourLength adj (iota (length adj)) = Some len →
  ∃ gen', shotgunHillClimbing adj numIterations numRestarts gen
    = Some (reduce no_best
              (replicate (Z.to_nat numRestarts) (iota (length adj), len)), gen').
Proof.
  intros Hn Hlen. unfold shotgunHillClimbing. rewrite restart_loop_reduce.
  destruct (runs_small adj numIterations (Z.to_nat numRestarts) gen len Hn Hlen)
    as [gen' ->]. by exists gen'.
Qed.

(** On [far2] the only tour has length [max() + max()], which overflows
    to infinity; no run is accepted. *)
Lemma shotgunHillClimbing_far2 numIterations numRestarts gen :
  ∃ gen', shotgunHillClimbing far2 numIterations numRestarts gen
          = Some (no_best, gen').
Proof.
  destruct (shotgunHillClimbing_small far2 numIterations numRestarts gen inf)
    as [gen' ->]; [simpl; lia | done |].
  exists gen'. do 2 f_equal. apply reduce_none.
  intros r [-> _]%elem_of_replicate. done.
Qed.

(** C6 (the code at a failing input). On the two-node matrix [far2],
    loaded without complaint, the solver returns the empty vector for
    every iteration cap, restart count and engine: not a permutation of
    the two nodes.  (The tours met before that are permutations with
    node 0 in front: [generateRandomTour_anchored], [climb_loop_spec],
    [hillClimb_spec]; so is what the solver returns whenever some run is
    strictly below [max()]: [shotgunHillClimbing_spec].) *)
Theorem solveTSP_far2_returns_no_tour numIterations numRestarts gen :
  valid_matrix far2
  ∧ solveTSP far2 numIterations numRestarts gen = Some []
  ∧ ¬ is_tour (length far2) [].
Proof.
  split; [done|]. split.
  - unfold solveTSP.
    by destruct (shotgunHillClimbing_far2 numIterations numRestarts gen) as [gen' ->].
  - intros Hp%is_tour_length. done.
Qed.

(** C7 (the code at a failing input). On [far2] with one restart the
    only run result is the tour [0 1] with length infinity; the
    reduction returns the empty vector and [max()] it started from,
    which is no run result.  (Whenever some run is strictly below
    [max()] the reduction does return the first run of minimal length:
    [reduce_first_minimum], [shotgunHillClimbing_spec].) *)
Theorem shotgunHillClimbing_far2_returns_no_run numIterations gen :
  ∃ gen',
    runs far2 numIterations 1 gen = Some ([([0; 1]%Z, inf)], gen')
    ∧ shotgunHillClimbing far2 numIterations 1 gen
      = Some (([], Double.max), gen')
    ∧ ([], Double.max) ∉ [([0; 1]%Z, inf)].
Proof.
  destruct (runs_small far2 numIterations 1 gen inf) as [gen' Hruns];
    [simpl; lia | done |].
  exists gen'. split; [done|]. split.
  - unfold shotgunHillClimbing. rewrite restart_loop_reduce.
    change (Z.to_nat 1) with 1. rewrite Hruns. done.
  - intros [=]%list_elem_of_singleton.
Qed.

(** C10 (the code at a failing input). On [far2] the best length inside
    the reduction stays [max()] while [main] prints the length of the
    empty vector, [0].  (A run of [hillClimb] does return a tour with
    its own length, [hillClimb_spec], and when some run is strictly
    below [max()] the printed length is the best length.) *)
Theorem main_far2_prints_another_length numIterations numRestarts seed :
  ∃ gen',
    shotgunHillClimbing far2 numIterations numRestarts
      (seed_engine (to_unsigned seed)) = Some (([], Double.max), gen')
    ∧ main far2 numIterations numRestarts seed = Some ([], Double.zero)
    ∧ SFeqb Double.zero Double.max = false.
Proof.
  destruct (shotgunHillClimbing_far2 numIterations numRestarts
              (seed_engine (to_unsigned seed))) as [gen' Hs].
  exists gen'. split; [done|]. split; [|done].
  unfold main, solveTSP. by rewrite Hs.
Qed.

(** C9 (as amended). On a single-node instance the length of the tour
    [0] is the diagonal entry [cost(0, 0)] added to [0.0], that is the
    entry itself (and [0.0] for an entry [-0.0]); it is 0 when the entry
    is 0, and solving the matrix [[0]] returns the tour [0] with length
    0 for every iteration cap and every restart count from 1 on. *)
Theorem single_node_length adj :
  valid_matrix adj → length adj = 1 →
  ∃ c, adj = [[c]] ∧ cost adj 0 0 = Some c
    ∧ calculateTourLength adj [0%Z] = Some (Double.add Double.zero c)
    ∧ Double.add Double.zero c
      = match c with S754_zero _ => Double.zero | _ => c end
    ∧ (c = Double.zero →
       ∀ numIterations numRestarts seed, (1 ≤ numRestarts)%Z →
         main adj numIterations numRestarts seed = Some ([0%Z], Double.zero)).
Proof.
  intros Hv Hn. pose proof (valid_matrix_inv adj Hv) as [_ Hsq].
  destruct adj as [|row [|]]; simplify_eq/=.
  specialize (Hsq 0 row eq_refl).
  destruct row as [|c [|]]; simplify_eq/=.
  exists c. split; [done|]. split; [done|]. split; [done|].
  split; [by destruct c as [[]|[]| |]|].
  intros -> numIterations numRestarts seed HR.
  destruct (shotgunHillClimbing_small [[Double.zero]] numIterations numRestarts
              (seed_engine (to_unsigned seed)) Double.zero) as [gen' Hs];
    [simpl; lia | done |].
  unfold main, solveTSP. rewrite Hs. simpl.
  destruct (Z.to_nat numRestarts) as [|n] eqn:Hn; [lia|].
  simpl replicate. rewrite reduce_cons.
  change (keep_best no_best (iota 1, Double.zero)) with ([0%Z], Double.zero).
  rewrite reduce_none; [done|].
  intros r [-> _]%elem_of_replicate. done.
Qed.

End SmallInstances.

(** ** Sequential and parallel solver *)

Section SequentialAndParallel.

Context `{RandomEngine}.

(** C8 (as amended). Run by a single thread, the parallel solver is the
    sequential one: for every input and seed it returns the same best
    tour with the same best length, and [main] prints the same. *)
Theorem parallel_one_thread_is_sequential adj numIterations numRestarts seed s :
  schedule_for 1 numRestarts s →
  shotgunHillClimbingParallel adj numIterations numRestarts (to_unsigned seed) s
  = fst <$> shotgunHillClimbing adj numIterations numRestarts
              (seed_engine (to_unsigned seed))
  ∧ main_parallel adj numIterations numRestarts seed s
    = main adj numIterations numRestarts seed.
Proof.
  intros [Hthreads Hshare].
  apply Permutation_singleton_r in Hthreads.
  destruct s as [|[threadId share] [|]]; simplify_eq/=.
  rewrite Nat.add_0_r in Hshare. subst share.
  assert (Hpar : shotgunHillClimbingParallel adj numIterations numRestarts
                   (to_unsigned seed) [(0, Z.to_nat numRestarts)]
                 = fst <$> shotgunHillClimbing adj numIterations numRestarts
                             (seed_engine (to_unsigned seed))).
  { unfold shotgunHillClimbingParallel, shotgunHillClimbing. simpl.
    unfold worker. rewrite worker_loop_restart_loop.
    replace (to_unsigned (to_unsigned seed + Z.of_nat 0)) with (to_unsigned seed)
      by (unfold to_unsigned; by rewrite Z.add_0_r, Z.mod_mod).
    rewrite restart_loop_reduce.
    destruct (runs adj numIterations (Z.to_nat numRestarts) _) as [[rs gen']|];
      [|done].
    simpl. f_equal.
    destruct (reduce_below no_best rs) as [-> | Hlt]; [done|].
    change (no_best.2) with Double.max in Hlt. by rewrite Hlt. }
  split; [done|].
  unfold main_parallel, main, solveTSP. rewrite Hpar.
  by destruct (shotgunHillClimbing adj _ _ _) as [[[bestTour bestLength] gen']|].
Qed.

End SequentialAndParallel.

(** ** Runs on concrete instances *)

Lemma is_tour_decide n tour : bool_decide (tour ≡ₚ iota n) = true → is_tour n tour.
Proof. intros Hd. by apply bool_decide_eq_true in Hd. Defined.

(** The scenario of the spec: the classic four-node instance, iteration
    cap 100, 5 restarts, seed 42, ends on the optimal length 80. *)
Example classic4_main :
  main classic4 100 5 42 = Some ([0; 2; 3; 1]%Z, Double.of_Z 80).
Proof. vm_compute. reflexivity. Qed.

(** A pass on the tour [0 2 1 3] of length 95: the moves (1,2) and (1,3)
    give 95 again, the move (2,3) gives 80 and is taken. *)
Example classic4_scan :
  moves 4 = [(1, 2); (1, 3); (2, 3)]
  ∧ scan classic4 [0; 2; 1; 3]%Z (Double.of_Z 95)
    = Some ([(1, 2); (1, 3); (2, 3)], Some ([0; 2; 3; 1]%Z, Double.of_Z 80)).
Proof. vm_compute. done. Qed.

(** A run that improves once and then converges. *)
Example classic4_run :
  fst <$> hillClimb_run classic4 100 (seed_engine 1)
  = Some (MkClimb [0; 2; 3; 1]%Z (Double.of_Z 80) Converged
            [Double.of_Z 80; Double.of_Z 80])
  ∧ (generateRandomTour classic4 (seed_engine 1)).1 = [0; 2; 1; 3]%Z
  ∧ calculateTourLength classic4 [0; 2; 1; 3]%Z = Some (Double.of_Z 95).
Proof. vm_compute. done. Qed.

Lemma calculateTourLength_cycle_sum_witness :
  valid_matrix classic4 ∧ is_tour (length classic4) [0; 2; 1; 3]%Z
  ∧ ∃ costs : list double,
      length costs = 4
      ∧ calculateTourLength classic4 [0; 2; 1; 3]%Z
        = Some (foldl Double.add Double.zero costs).
Proof.
  assert (Hv : valid_matrix classic4) by (vm_compute; reflexivity).
  assert (Ht : is_tour (length classic4) [0; 2; 1; 3]%Z)
    by (apply is_tour_decide; vm_compute; reflexivity).
  split; [exact Hv|]. split; [exact Ht|].
  destruct (calculateTourLength_cycle_sum classic4 [0; 2; 1; 3]%Z Hv Ht)
    as (costs & Hlen & _ & _ & Hsum).
  exists costs. split; [exact Hlen | exact Hsum].
Defined.

Lemma twoOptSwap_reverses_segment_witness :
  1 ≤ 1 ∧ 1 < 3 ∧ 3 ≤ length [0; 1; 2; 3; 4]%Z - 1
  ∧ length (twoOptSwap [0; 1; 2; 3; 4]%Z 1 3) = 5
  ∧ twoOptSwap [0; 1; 2; 3; 4]%Z 1 3 !! 0 = Some 0%Z
  ∧ edge (twoOptSwap [0; 1; 2; 3; 4]%Z 1 3) 0 = Some (0, 3)%Z
  ∧ edge (twoOptSwap [0; 1; 2; 3; 4]%Z 1 3) 3 = Some (1, 4)%Z.
Proof.
  assert (H1 : 1 ≤ 1) by lia.
  assert (H2 : 1 < 3) by lia.
  assert (H3 : 3 ≤ length [0; 1; 2; 3; 4]%Z - 1) by (simpl; lia).
  split; [exact H1|]. split; [exact H2|]. split; [exact H3|].
  destruct (twoOptSwap_reverses_segment [0; 1; 2; 3; 4]%Z 1 3 H1 H2 H3)
    as (Hlen & _ & _ & H0 & _ & _ & Hin & Hout & _).
  split; [exact Hlen|]. split; [exact H0|]. split; [exact Hin | exact Hout].
Defined.

(** C2 (counterexample). The edges inside the segment are not preserved:
    on the tour [0 1 2 3] the move (1, 2) replaces the edge [(1, 2)],
    which is neither of the two edges named, by [(2, 1)].  On [detour4],
    where going from 1 to 2 costs 3 and going back costs 9, the new tour
    has length 23, while the old length 10 with the costs of the two
    named edges taken off (2 and 1) and those of the two new edges put on
    (1 and 9) is 17. *)
Lemma twoOptSwap_inner_edge_turned_round :
  twoOptSwap [0; 1; 2; 3]%Z 1 2 = [0; 2; 1; 3]%Z
  ∧ cycle_edges [0; 1; 2; 3]%Z = [(0, 1); (1, 2); (2, 3); (3, 0)]%Z
  ∧ cycle_edges (twoOptSwap [0; 1; 2; 3]%Z 1 2)
    = [(0, 2); (2, 1); (1, 3); (3, 0)]%Z
  ∧ omap (edge [0; 1; 2; 3]%Z) [0; 2] = [(0, 1); (2, 3)]%Z
  ∧ omap (edge (twoOptSwap [0; 1; 2; 3]%Z 1 2)) [0; 2] = [(0, 2); (1, 3)]%Z
  ∧ (1, 2)%Z ∈ cycle_edges [0; 1; 2; 3]%Z
  ∧ ((1, 2)%Z ∉ cycle_edges (twoOptSwap [0; 1; 2; 3]%Z 1 2))
  ∧ ¬ ((cycle_edges (twoOptSwap [0; 1; 2; 3]%Z 1 2)
          ++ omap (edge [0; 1; 2; 3]%Z) [0; 2])
       ≡ₚ (cycle_edges [0; 1; 2; 3]%Z
          ++ omap (edge (twoOptSwap [0; 1; 2; 3]%Z 1 2)) [0; 2]))
  ∧ valid_matrix detour4
  ∧ cost detour4 1 2 = Some (Double.of_Z 3)
  ∧ cost detour4 2 1 = Some (Double.of_Z 9)
  ∧ calculateTourLength detour4 [0; 1; 2; 3]%Z = Some (Double.of_Z 10)
  ∧ calculateTourLength detour4 (twoOptSwap [0; 1; 2; 3]%Z 1 2)
    = Some (Double.of_Z 23)
  ∧ (cost detour4 0 1, cost detour4 2 3, cost detour4 0 2, cost detour4 1 3)
    = (Some (Double.of_Z 2), Some (Double.of_Z 1),
       Some (Double.of_Z 1), Some (Double.of_Z 9))
  ∧ foldl Double.add (Double.of_Z 17) [Double.of_Z 2; Double.of_Z 1]
    = foldl Double.add (Double.of_Z 10) [Double.of_Z 1; Double.of_Z 9]
  ∧ SFeqb (Double.of_Z 23) (Double.of_Z 17) = false.
Proof.
  split; [reflexivity|]. split; [reflexivity|]. split; [reflexivity|].
  split; [reflexivity|]. split; [reflexivity|].
  split; [apply (list_elem_of_lookup_2 _ 1); reflexivity|].
  split; [apply (proj1 (bool_decide_eq_false _)); vm_compute; reflexivity|].
  split; [apply (proj1 (bool_decide_eq_false _)); vm_compute; reflexivity|].
  vm_compute. done.
Qed.

Lemma scan_first_improvement_witness :
  valid_matrix classic4 ∧ is_tour (length classic4) [0; 2; 1; 3]%Z
  ∧ ∃ trace found,
      scan classic4 [0; 2; 1; 3]%Z (Double.of_Z 95) = Some (trace, found).
Proof.
  assert (Hv : valid_matrix classic4) by (vm_compute; reflexivity).
  assert (Ht : is_tour (length classic4) [0; 2; 1; 3]%Z)
    by (apply is_tour_decide; vm_compute; reflexivity).
  split; [exact Hv|]. split; [exact Ht|].
  destruct (scan_first_improvement classic4 [0; 2; 1; 3]%Z (Double.of_Z 95) Hv Ht)
    as (_ & _ & Hm).
  destruct (list_find _ _) as [[k [i j]]|].
  - destruct Hm as (l & _ & _ & Hs & _). eexists _, _. exact Hs.
  - destruct Hm as [Hs _]. eexists _, _. exact Hs.
Defined.

Lemma hillClimb_converged_local_optimum_witness :
  valid_matrix classic4
  ∧ ∃ c gen', hillClimb_run classic4 100 (seed_engine 1) = Some (c, gen')
      ∧ calculateTourLength classic4 (final_tour c) = Some (final_length c)
      ∧ (exit c = Converged →
         ∀ i j, 1 ≤ i → i < j → j ≤ length (final_tour c) - 1 →
           ∃ l, calculateTourLength classic4 (twoOptSwap (final_tour c) i j) = Some l
                ∧ Double.ltb l (final_length c) = false).
Proof.
  assert (Hv : valid_matrix classic4) by (vm_compute; reflexivity).
  split; [exact Hv|].
  destruct (hillClimb_converged_local_optimum classic4 100 (seed_engine 1) Hv)
    as (c & gen' & Hrun & _ & Hlen & Hopt).
  exists c, gen'. split; [exact Hrun|]. split; [exact Hlen | exact Hopt].
Defined.

Lemma hillClimb_lengths_non_increasing_witness :
  valid_matrix classic4 ∧ matrix_nonneg classic4 = true
  ∧ ∃ c gen' len0,
      hillClimb_run classic4 100 (seed_engine 1) = Some (c, gen')
      ∧ calculateTourLength classic4 (generateRandomTour classic4 (seed_engine 1)).1
        = Some len0
      ∧ non_increasing (len0 :: observed c)
      ∧ below_or_same (final_length c) len0
      ∧ SFleb (final_length c) len0 = true.
Proof.
  assert (Hv : valid_matrix classic4) by (vm_compute; reflexivity).
  assert (Hnn : matrix_nonneg classic4 = true) by (vm_compute; reflexivity).
  split; [exact Hv|]. split; [exact Hnn|].
  destruct (hillClimb_lengths_non_increasing classic4 100 (seed_engine 1) Hv)
    as (c & gen' & len0 & Hrun & Hlen0 & Hmono & _ & Hle & _ & Hieee).
  exists c, gen', len0.
  split; [exact Hrun|]. split; [exact Hlen0|]. split; [exact Hmono|].
  split; [exact Hle | exact (proj2 (Hieee Hnn))].
Defined.

Lemma single_node_length_witness :
  valid_matrix [[Double.zero]] ∧ length [[Double.zero]] = 1
  ∧ main [[Double.zero]] 100 5 42 = Some ([0%Z], Double.zero).
Proof.
  assert (Hv : valid_matrix [[Double.zero]]) by (vm_compute; reflexivity).
  assert (Hn : length [[Double.zero]] = 1) by reflexivity.
  split; [exact Hv|]. split; [exact Hn|].
  destruct (single_node_length [[Double.zero]] Hv Hn)
    as (c & Heq & _ & _ & _ & Hmain).
  injection Heq as <-. apply Hmain; [reflexivity | lia].
Defined.

(** C9 (counterexample). The one-node matrix [[5]] is loaded, its only
    tour is [0], and the length of that tour is 5, not 0. *)
Lemma single_node_length_not_zero :
  valid_matrix [[Double.of_Z 5]] ∧ is_tour 1 [0%Z]
  ∧ calculateTourLength [[Double.of_Z 5]] [0%Z] = Some (Double.of_Z 5)
  ∧ Double.ltb Double.zero (Double.of_Z 5) = true
  ∧ SFeqb (Double.of_Z 5) Double.zero = false.
Proof. vm_compute. done. Qed.

Lemma parallel_one_thread_is_sequential_witness :
  schedule_for 1 5 [(0, 5)]
  ∧ main_parallel classic4 100 5 42 [(0, 5)] = main classic4 100 5 42.
Proof.
  assert (Hs : schedule_for 1 5 [(0, 5)]) by (split; reflexivity).
  split; [exact Hs|].
  exact (proj2 (parallel_one_thread_is_sequential classic4 100 5 42 [(0, 5)] Hs)).
Defined.

(** C8 (counterexample). On [detour4] with iteration cap 100, 2 restarts
    and seed 7, the sequential program ends on length 5 and the parallel
    program run by two threads with one restart each (the sharing of a
    static schedule, the default of GNU libgomp) ends on length 10,
    whichever thread enters the critical section first.  The sequential
    program draws both start tours from the engine seeded with 7: the
    runs end on lengths 23 and 5.  In the parallel program thread 1
    draws its start tour from an engine of its own, seeded with 8: the
    runs of the two threads end on lengths 23 and 10. *)
Lemma parallel_two_threads_differs :
  valid_matrix detour4
  ∧ schedule_for 2 2 [(0, 1); (1, 1)] ∧ schedule_for 2 2 [(1, 1); (0, 1)]
  ∧ fst <$> runs detour4 100 2 (seed_engine 7)
    = Some [([0; 3; 1; 2]%Z, Double.of_Z 23); ([0; 2; 3; 1]%Z, Double.of_Z 5)]
  ∧ fst <$> runs detour4 100 1 (seed_engine 8)
    = Some [([0; 1; 2; 3]%Z, Double.of_Z 10)]
  ∧ main detour4 100 2 7 = Some ([0; 2; 3; 1]%Z, Double.of_Z 5)
  ∧ main_parallel detour4 100 2 7 [(0, 1); (1, 1)]
    = Some ([0; 1; 2; 3]%Z, Double.of_Z 10)
  ∧ main_parallel detour4 100 2 7 [(1, 1); (0, 1)]
    = Some ([0; 1; 2; 3]%Z, Double.of_Z 10)
  ∧ SFeqb (Double.of_Z 5) (Double.of_Z 10) = false.
Proof.
  split; [vm_compute; reflexivity|].
  split; [split; [apply perm_swap || reflexivity | reflexivity]|].
  split; [split; [apply perm_swap || reflexivity | reflexivity]|].
  vm_compute. done.
Qed.

(** ** The engine against the C++ standard *)

(** The value that the standard requires of [std::mt19937]: the 10000th
    output of a default-constructed engine (seed 5489) is 4123659995. *)
Example mt19937_10000th :
  last (Mt19937.outputs (Z.to_nat 10000) (Mt19937.seed 5489)) = Some 4123659995%Z.
Proof. vm_compute. reflexivity. Qed.

(** Shuffles of ranges of 2, 5 and 6 cells by the engine seeded with 42,
    one after the other. *)
Example mt19937_shuffles :
  fst <$> Mt19937.shuffle 1 [0; 1]%Z (Mt19937.seed 42) = Some [1; 0]%Z
  ∧ fst <$> ('(_, g1) ← Mt19937.shuffle 1 [0; 1]%Z (Mt19937.seed 42);
             Mt19937.shuffle 1 [0; 1; 2; 3; 4]%Z g1)
    = Some [0; 2; 1; 3; 4]%Z
  ∧ fst <$> ('(_, g1) ← Mt19937.shuffle 1 [0; 1]%Z (Mt19937.seed 42);
             '(_, g2) ← Mt19937.shuffle 1 [0; 1; 2; 3; 4]%Z g1;
             Mt19937.shuffle 1 [0; 1; 2; 3; 4; 5]%Z g2)
    = Some [3; 0; 2; 4; 1; 5]%Z.
Proof. vm_compute. done. Qed.

(** The start tours of the first two runs of the engine seeded with 7,
    and of the first run of the engine seeded with 8; the distribution
    accepts its first draw (fuel 1 leaves no room for a rejection). *)
Example mt19937_start_tours :
  Mt19937.outputs 2 (Mt19937.seed 7) = [327741615; 976413892]%Z
  ∧ Mt19937.outputs 1 (Mt19937.seed 8) = [3751350723]%Z
  ∧ fst <$> Mt19937.shuffle 1 [1; 2; 3]%Z (Mt19937.seed 7) = Some [3; 1; 2]%Z
  ∧ fst <$> Mt19937.shuffle 1 [1; 2; 3]%Z (Mt19937.seed 8) = Some [1; 2; 3]%Z
  ∧ (generateRandomTour detour4 (seed_engine 7)).1 = [0; 3; 1; 2]%Z
  ∧ (generateRandomTour detour4 (seed_engine 8)).1 = [0; 1; 2; 3]%Z.
Proof. vm_compute. done. Qed.

(** * Further properties of the solver *)

(** ** The cost function on arbitrary vectors *)

Lemma vec_at_Some {A} (v : list A) i x :
  vec_at v i = Some x → (0 ≤ i < Z.of_nat (length v))%Z.
Proof.
  unfold vec_at. destruct (Z.ltb_spec i 0); [done|].
  intros Hx%lookup_lt_Some. lia.
Qed.

Lemma cost_Some adj a b c :
  valid_matrix adj → cost adj a b = Some c →
  (0 ≤ a < Z.of_nat (length adj))%Z ∧ (0 ≤ b < Z.of_nat (length adj))%Z.
Proof.
  intros [_ Hsq]%valid_matrix_inv. unfold cost. intros Hc.
  destruct (vec_at adj a) as [row|] eqn:Hrow; [|done]. simpl in Hc.
  pose proof (vec_at_Some _ _ _ Hrow) as Ha.
  pose proof (vec_at_Some _ _ _ Hc) as Hb.
  unfold vec_at in Hrow. destruct (Z.ltb_spec a 0); [done|].
  rewrite (Hsq _ _ Hrow) in Hb. done.
Qed.

Lemma length_loop_in_range adj tour todo i acc :
  valid_matrix adj → in_range (length adj) tour → i + todo ≤ length tour →
  is_Some (length_loop adj tour todo i acc).
Proof.
  intros Hv Hr. revert i acc.
  induction todo as [|todo IH]; intros i acc Hi; [by eexists|].
  destruct (edge_defined tour i) as (a & b & _ & Ha & Hb); [lia|].
  unfold in_range in Hr. rewrite Forall_lookup in Hr.
  destruct (cost_defined adj a b Hv) as [c Hc]; [by eapply Hr | by eapply Hr |].
  simpl. rewrite Ha. simpl. rewrite Hb. simpl. rewrite Hc. simpl.
  apply IH. lia.
Qed.

Lemma length_loop_Some_range adj tour todo i acc len k a :
  valid_matrix adj → length_loop adj tour todo i acc = Some len →
  k < todo → tour !! (i + k) = Some a →
  (0 ≤ a < Z.of_nat (length adj))%Z.
Proof.
  intros Hv. revert i acc k.
  induction todo as [|todo IH]; intros i acc k Hloop Hk Ha; [lia|].
  simpl in Hloop.
  destruct (tour !! i) as [a0|] eqn:Ha0; [|done]. simpl in Hloop.
  destruct (tour !! ((i + 1) mod length tour)) as [b0|]; [|done]. simpl in Hloop.
  destruct (cost adj a0 b0) as [c|] eqn:Hc; [|done]. simpl in Hloop.
  destruct k as [|k].
  - rewrite Nat.add_0_r in Ha. rewrite Ha0 in Ha. injection Ha as <-.
    by destruct (cost_Some adj a0 b0 c Hv Hc) as [? _].
  - eapply (IH (S i) _ k); [done|lia|]. by replace (S i + k) with (i + S k) by lia.
Qed.

(** X1. [calculateTourLength] is a public member: on a loaded matrix it
    stays inside the matrix exactly for the vectors all of whose cells are
    node indices (a permutation is not needed, the empty vector has
    length 0); any other vector makes it index outside the matrix. *)
Theorem calculateTourLength_in_bounds adj tour :
  valid_matrix adj →
  (is_Some (calculateTourLength adj tour) ↔ in_range (length adj) tour)
  ∧ calculateTourLength adj [] = Some Double.zero.
Proof.
  intros Hv. split; [|done]. split.
  - intros [len Hlen]. unfold in_range. apply Forall_lookup. intros k a Ha.
    eapply (length_loop_Some_range adj tour (length tour) 0 _ len k a);
      [done|exact Hlen| |done].
    by eapply lookup_lt_Some.
  - intros Hr. apply length_loop_in_range; [done|done|lia].
Qed.

Lemma nonneg_leb_zero x : Double.nonneg x = true → SFleb Double.zero x = true.
Proof. by destruct x as [[]|[]| |[]]. Qed.

(** X2. On a matrix none of whose cells is negative or a NaN, whatever
    vector [calculateTourLength] is given, the length it returns is no
    NaN and is not below zero ([0.0 <= length] in IEEE arithmetic; it may
    be infinite). *)
Theorem calculateTourLength_not_negative adj tour len :
  matrix_nonneg adj = true → calculateTourLength adj tour = Some len →
  Double.is_nan len = false ∧ SFleb Double.zero len = true
  ∧ Double.ltb len Double.zero = false.
Proof.
  intros Hnn Hlen.
  pose proof (calculateTourLength_nonneg adj tour len Hnn Hlen) as Hlen'.
  split; [by apply nonneg_not_nan|]. split; [by apply nonneg_leb_zero|].
  by destruct len as [[]|[]| |[]].
Qed.

(** ** The 2-opt move, twice *)

(** X3. A 2-opt move is its own inverse: reversing the cells [i .. j] of
    the result again gives the tour back. *)
Theorem twoOptSwap_involutive tour i j :
  i ≤ j → j < length tour →
  twoOptSwap (twoOptSwap tour i j) i j = tour.
Proof.
  intros Hij Hj. apply list_eq. intros k.
  destruct (decide (i ≤ k ≤ j)) as [[Hik Hkj]|Hout].
  - rewrite twoOptSwap_lookup_inside by (rewrite ?length_twoOptSwap; lia).
    rewrite twoOptSwap_lookup_inside by lia. f_equal. lia.
  - rewrite twoOptSwap_lookup_outside by (rewrite ?length_twoOptSwap; lia).
    apply twoOptSwap_lookup_outside; lia.
Qed.

(** ** The hill climb never comes back to a tour *)







Section Convergence.

Context `{RandomEngine}.


End Convergence.

(** ** The restart loop and the parallel region as reductions *)

Lemma ltb_not_nan x y : Double.ltb x y = true → Double.is_nan x = false.
Proof. by destruct x as [[]|[]| |[]]. Qed.

Lemma reduce_not_nan best rs :
  Double.is_nan best.2 = false → Double.is_nan (reduce best rs).2 = false.
Proof.
  intros Hb. destruct (reduce_below best rs) as [-> | Hlt]; [done|].
  by eapply ltb_not_nan.
Qed.

Lemma reduce_app best rs1 rs2 :
  reduce best (rs1 ++ rs2) = reduce (reduce best rs1) rs2.
Proof. unfold reduce. apply foldl_app. Qed.

(** What the reduction leaves is not above what it started from, not above
    any run, and is the start value or one of the runs. *)
Lemma reduce_lower_bound best rs :
  Double.ltb best.2 (reduce best rs).2 = false
  ∧ ∀ r, r ∈ rs → Double.ltb r.2 (reduce best rs).2 = false.
Proof.
  split.
  - destruct (reduce_below best rs) as [-> | Hlt];
      [apply ltb_irrefl | by apply ltb_asym].
  - intros r Hr.
    destruct (decide (Exists (λ r, Double.ltb r.2 best.2 = true) rs)) as [Hex|Hno].
    + apply Exists_exists in Hex.
      destruct (reduce_first_minimum best rs Hex) as (k & m & _ & -> & _ & Hmin & _).
      by apply Hmin.
    + rewrite Exists_exists in Hno. rewrite reduce_none.
      * apply not_true_is_false. intros Hlt. apply Hno. eauto.
      * intros r' Hr'. apply not_true_is_false. intros Hlt. apply Hno. eauto.
Qed.

Lemma SFcompare_Eq_of_not_ltb x y :
  Double.is_nan x = false → Double.is_nan y = false →
  Double.ltb x y = false → Double.ltb y x = false → SFeqb x y = true.
Proof.
  unfold Double.ltb, SFltb, SFeqb. rewrite (SFcompare_antisym x y).
  intros Hx Hy.
  assert (is_Some (SFcompare x y)) as [c Hc].
  { destruct x as [[]|[]| |[]], y as [[]|[]| |[]]; simpl in *; by eauto. }
  rewrite Hc. simpl. by destruct c.
Qed.

Section Reductions.

Context `{RandomEngine}.

Lemma runs_app adj numIterations a b gen :
  runs adj numIterations (a + b) gen
  = '(rs1, gen1) ← runs adj numIterations a gen;
    '(rs2, gen2) ← runs adj numIterations b gen1;
    Some (rs1 ++ rs2, gen2).
Proof.
  revert gen. induction a as [|a IH]; intros gen; simpl.
  - by destruct (runs adj numIterations b gen) as [[? ?]|].
  - destruct (hillClimb adj numIterations gen) as [[current gen']|]; [|done].
    simpl. rewrite IH.
    destruct (runs adj numIterations a gen') as [[rs1 gen1]|]; [|done]. simpl.
    by destruct (runs adj numIterations b gen1) as [[rs2 gen2]|].
Qed.

(** X5. With the same matrix, iteration cap and engine, a larger restart
    count goes through the same runs and then some more, and the best
    length it ends on is not above the one of the smaller count. *)
Theorem shotgunHillClimbing_more_restarts adj numIterations R R' gen :
  valid_matrix adj → (R ≤ R')%Z →
  ∃ rs more best gen1 best' gen2,
    runs adj numIterations (Z.to_nat R) gen = Some (rs, gen1)
    ∧ runs adj numIterations (Z.to_nat R') gen = Some (rs ++ more, gen2)
    ∧ shotgunHillClimbing adj numIterations R gen = Some (best, gen1)
    ∧ shotgunHillClimbing adj numIterations R' gen = Some (best', gen2)
    ∧ best' = reduce best more
    ∧ below_or_same best'.2 best.2
    ∧ SFleb best'.2 best.2 = true.
Proof.
  intros Hv HR.
  destruct (runs_spec adj numIterations (Z.to_nat R) gen Hv)
    as (rs & gen1 & Hruns & _ & _).
  destruct (runs_spec adj numIterations (Z.to_nat R' - Z.to_nat R) gen1 Hv)
    as (more & gen2 & Hmore & _ & _).
  assert (Hruns' : runs adj numIterations (Z.to_nat R') gen = Some (rs ++ more, gen2)).
  { replace (Z.to_nat R') with (Z.to_nat R + (Z.to_nat R' - Z.to_nat R)) by lia.
    rewrite runs_app, Hruns. simpl. by rewrite Hmore. }
  exists rs, more, (reduce no_best rs), gen1, (reduce no_best (rs ++ more)), gen2.
  split; [done|]. split; [done|].
  split; [unfold shotgunHillClimbing; by rewrite restart_loop_reduce, Hruns|].
  split; [unfold shotgunHillClimbing; by rewrite restart_loop_reduce, Hruns'|].
  rewrite reduce_app. split; [done|].
  assert (Hbs : below_or_same (reduce (reduce no_best rs) more).2 (reduce no_best rs).2).
  { destruct (reduce_below (reduce no_best rs) more) as [-> | Hlt];
      [by right | by left]. }
  split; [done|]. apply below_or_same_leb; [done|]. by apply reduce_not_nan.
Qed.

Lemma worker_spec adj numIterations baseSeed threadId share :
  valid_matrix adj →
  ∃ rs gen',
    runs adj numIterations share
      (seed_engine (to_unsigned (baseSeed + Z.of_nat threadId))) = Some (rs, gen')
    ∧ length rs = share
    ∧ (∀ r, r ∈ rs → anchored_tour (length adj) r.1
                      ∧ calculateTourLength adj r.1 = Some r.2)
    ∧ worker adj numIterations baseSeed threadId share = Some (reduce no_best rs).
Proof.
  intros Hv.
  destruct (runs_spec adj numIterations share
              (seed_engine (to_unsigned (baseSeed + Z.of_nat threadId))) Hv)
    as (rs & gen' & Hruns & Hn & Hall).
  exists rs, gen'. split; [done|]. split; [done|]. split; [done|].
  unfold worker. by rewrite worker_loop_restart_loop, restart_loop_reduce, Hruns.
Qed.

Lemma reduce_no_best_ok adj rs :
  (∀ r, r ∈ rs → anchored_tour (length adj) r.1
                  ∧ calculateTourLength adj r.1 = Some r.2) →
  local_best_ok adj (reduce no_best rs).
Proof.
  intros Hall.
  destruct (reduce_elem no_best rs) as [Heq|Hin]; [by left|].
  destruct (reduce_below no_best rs) as [Heq|Hlt]; [by left|].
  right. destruct (Hall _ Hin) as [? ?]. done.
Qed.

Lemma critical_loop_spec adj numIterations baseSeed s best :
  valid_matrix adj →
  ∃ ls,
    Forall2 (λ ts lb, worker adj numIterations baseSeed ts.1 ts.2 = Some lb) s ls
    ∧ (∀ lb, lb ∈ ls → local_best_ok adj lb)
    ∧ critical_loop adj numIterations baseSeed s best = Some (reduce best ls).
Proof.
  intros Hv. revert best. induction s as [|[threadId share] s IH]; intros best.
  - exists []. split; [constructor|]. split; [|done].
    intros lb Hin. by apply elem_of_nil in Hin.
  - destruct (worker_spec adj numIterations baseSeed threadId share Hv)
      as (rs & gen' & _ & _ & Hall & Hw).
    destruct (IH (keep_best best (reduce no_best rs))) as (ls & Hls & Hok & Hloop).
    exists (reduce no_best rs :: ls). split; [by constructor|]. split.
    + intros lb [->|Hin]%elem_of_cons; [by apply reduce_no_best_ok | by apply Hok].
    + simpl. rewrite Hw. simpl. exact Hloop.
Qed.

(** X6. For a given sharing of the restarts among the threads, the order
    in which the threads enter the critical section does not change the
    best length of the parallel solver: two executions that differ only in
    that order end on equal lengths (the tours may differ when several
    threads tie). *)
Theorem parallel_length_independent_of_critical_order
    adj numIterations numRestarts baseSeed s s' :
  valid_matrix adj → s ≡ₚ s' →
  ∃ best best',
    shotgunHillClimbingParallel adj numIterations numRestarts baseSeed s = Some best
    ∧ shotgunHillClimbingParallel adj numIterations numRestarts baseSeed s' = Some best'
    ∧ SFeqb best.2 best'.2 = true
    ∧ local_best_ok adj best ∧ local_best_ok adj best'.
Proof.
  intros Hv Hp. unfold shotgunHillClimbingParallel.
  destruct (critical_loop_spec adj numIterations baseSeed s no_best Hv)
    as (ls & Hls & Hok & ->).
  destruct (critical_loop_spec adj numIterations baseSeed s' no_best Hv)
    as (ls' & Hls' & Hok' & ->).
  assert (Hsub : ∀ (s1 s2 : Schedule) (l1 l2 : list (Tour * double)),
            s1 ≡ₚ s2 →
            Forall2 (λ ts lb, worker adj numIterations baseSeed ts.1 ts.2 = Some lb) s1 l1 →
            Forall2 (λ ts lb, worker adj numIterations baseSeed ts.1 ts.2 = Some lb) s2 l2 →
            ∀ lb, lb ∈ l1 → lb ∈ l2).
  { intros s1 s2 l1 l2 H12 H1 H2 lb [k Hk]%list_elem_of_lookup.
    destruct (Forall2_lookup_r _ _ _ _ _ H1 Hk) as (ts & Hts & Hw).
    assert (Hin : ts ∈ s2) by (rewrite <- H12; by eapply list_elem_of_lookup_2).
    apply list_elem_of_lookup in Hin as [k' Hk'].
    destruct (Forall2_lookup_l _ _ _ _ _ H2 Hk') as (lb' & Hlb' & Hw').
    assert (lb' = lb) as -> by congruence. by eapply list_elem_of_lookup_2. }
  assert (Hle : ∀ l l' : list (Tour * double),
            (∀ lb, lb ∈ l' → lb ∈ l) →
            Double.ltb (reduce no_best l').2 (reduce no_best l).2 = false).
  { intros l l' Hll'. destruct (reduce_lower_bound no_best l) as [Hstart Hruns].
    destruct (reduce_elem no_best l') as [-> | Hin]; [done|].
    by apply Hruns, Hll'. }
  exists (reduce no_best ls), (reduce no_best ls').
  split; [done|]. split; [done|]. split.
  - apply SFcompare_Eq_of_not_ltb; try by apply reduce_not_nan.
    + apply Hle. by eapply (Hsub s s').
    + apply Hle. by eapply (Hsub s' s).
  - assert (Hred : ∀ l : list (Tour * double),
              (∀ lb, lb ∈ l → local_best_ok adj lb) →
              local_best_ok adj (reduce no_best l)).
    { intros l Hl. destruct (reduce_elem no_best l) as [-> | Hin];
        [by left | by apply Hl]. }
    split; by apply Hred.
Qed.

End Reductions.

(** ** What the two programs print *)

Section Output.

Context `{RandomEngine}.

(** X7. What the sequential program prints on a loaded matrix, in terms of
    the hill-climb runs of the restart loop: when some run is strictly
    below [max()] it prints the tour and the length of the first run of
    minimal length (no run is strictly shorter, every earlier run is
    strictly longer or a NaN), and that tour is a permutation of the nodes
    with node 0 in front; when no run is below [max()] it prints the empty
    tour and length 0. *)
Theorem main_prints_first_shortest_run adj numIterations numRestarts seed :
  valid_matrix adj →
  ∃ rs gen',
    runs adj numIterations (Z.to_nat numRestarts) (seed_engine (to_unsigned seed))
    = Some (rs, gen')
    ∧ length rs = Z.to_nat numRestarts
    ∧ ((∀ r, r ∈ rs → Double.ltb r.2 Double.max = false) →
       main adj numIterations numRestarts seed = Some ([], Double.zero))
    ∧ ((∃ r, r ∈ rs ∧ Double.ltb r.2 Double.max = true) →
       ∃ k r, rs !! k = Some r
         ∧ main adj numIterations numRestarts seed = Some r
         ∧ anchored_tour (length adj) r.1
         ∧ (∀ r', r' ∈ rs → Double.ltb r'.2 r.2 = false)
         ∧ (∀ k' r', k' < k → rs !! k' = Some r' → SFleb r'.2 r.2 = false)).
Proof.
  intros Hv.
  destruct (shotgunHillClimbing_spec adj numIterations numRestarts
              (seed_engine (to_unsigned seed)) Hv)
    as (rs & gen' & Hruns & Hn & Hall & Hs & Hnone & Hsome).
  exists rs, gen'. split; [done|]. split; [done|]. split.
  - intros Hno. unfold main, solveTSP. rewrite Hs, (Hnone Hno). done.
  - intros Hex. destruct (Hsome Hex) as (k & r & Hk & Hred & Hmin & Hfirst).
    exists k, r. split; [done|].
    destruct (Hall r) as [Hanch Hlen]; [by eapply list_elem_of_lookup_2|].
    split; [|done].
    unfold main, solveTSP. rewrite Hs, Hred. simpl. rewrite Hlen. simpl.
    by destruct r.
Qed.

(** X8. On a loaded matrix both programs stay inside their vectors for
    every iteration cap, restart count, seed and, for the parallel one,
    every sharing of the restarts among threads; the parallel program
    prints the empty tour with length 0, or a permutation of the nodes
    with node 0 in front together with its own length. *)
Theorem programs_stay_in_bounds adj numIterations numRestarts seed :
  valid_matrix adj →
  (∃ out, main adj numIterations numRestarts seed = Some out)
  ∧ ∀ s, ∃ out,
      main_parallel adj numIterations numRestarts seed s = Some out
      ∧ (out = ([], Double.zero)
         ∨ anchored_tour (length adj) out.1
           ∧ calculateTourLength adj out.1 = Some out.2).
Proof.
  intros Hv. split.
  - destruct (main_spec adj numIterations numRestarts seed Hv)
      as (best & gen' & _ & [[_ ->] | [_ ->]]); eauto.
  - intros s. unfold main_parallel, shotgunHillClimbingParallel.
    destruct (critical_loop_spec adj numIterations (to_unsigned seed) s no_best Hv)
      as (ls & _ & Hok & ->). simpl.
    assert (Hbest : local_best_ok adj (reduce no_best ls)).
    { destruct (reduce_elem no_best ls) as [-> | Hin]; [by left | by apply Hok]. }
    destruct (reduce no_best ls) as [bestTour bestLength].
    destruct Hbest as [[= -> ->] | (Hanch & Hlen & _)]; simpl in *.
    + exists ([], Double.zero). split; [done | by left].
    + rewrite Hlen. simpl. eexists. split; [done|]. right. done.
Qed.

(** X9. Parameters that are zero or negative are not rejected.  With a
    restart count of 0 or less no run is made and the program prints the
    empty tour and length 0, whatever the matrix; with an iteration cap
    of 0 or less a run returns its random initial tour as it is. *)
Theorem non_positive_parameters adj numIterations numRestarts seed gen :
  ((numRestarts ≤ 0)%Z →
   solveTSP adj numIterations numRestarts gen = Some []
   ∧ main adj numIterations numRestarts seed = Some ([], Double.zero))
  ∧ (valid_matrix adj → (numIterations ≤ 0)%Z →
     ∃ len0,
       calculateTourLength adj (generateRandomTour adj gen).1 = Some len0
       ∧ hillClimb adj numIterations gen
         = Some (((generateRandomTour adj gen).1, len0),
                 (generateRandomTour adj gen).2)).
Proof.
  split.
  - intros HR. unfold main, solveTSP, shotgunHillClimbing.
    replace (Z.to_nat numRestarts) with 0 by lia. done.
  - intros Hv HK.
    pose proof (generateRandomTour_anchored adj gen Hv) as [Ht _].
    destruct (calculateTourLength_defined adj _ Hv Ht) as [len0 Hlen0].
    exists len0. split; [done|]. unfold hillClimb, hillClimb_run.
    destruct (generateRandomTour adj gen) as [tour gen']. simpl in *.
    rewrite Hlen0. simpl. by replace (Z.to_nat numIterations) with 0 by lia.
Qed.

End Output.

(** * Properties of the input reading *)

Lemma extract_Some delim text before rest :
  extract delim text = (before, Some rest) →
  text = before +:+ String delim rest
  ∧ free_of delim before = true
  ∧ String.length rest < String.length text
  ∧ pieces delim text = before :: pieces delim rest.
Proof.
  revert before. induction text as [|c text IH]; intros before Hex; [done|].
  simpl in Hex. simpl pieces. destruct (Ascii.eqb c delim) eqn:Hc.
  - apply Ascii.eqb_eq in Hc as ->. simplify_eq. simpl. split; [done|].
    split; [done|]. split; [lia | done].
  - destruct (extract delim text) as [before' after] eqn:Hrest. simplify_eq.
    destruct (IH before' eq_refl) as (-> & Hfree & Hlen & ->).
    simpl. rewrite Hc. simpl. split; [done|]. split; [done|]. split; [lia | done].
Qed.

Lemma extract_None delim text before :
  extract delim text = (before, None) →
  before = text ∧ free_of delim text = true
  ∧ pieces delim text = match text with EmptyString => [] | _ => [text] end.
Proof.
  revert before. induction text as [|c text IH]; intros before Hex.
  - by simplify_eq/=.
  - simpl in Hex. simpl pieces. simpl free_of.
    destruct (Ascii.eqb c delim) eqn:Hc; [done|].
    destruct (extract delim text) as [before' after] eqn:Hrest. simplify_eq.
    destruct (IH before' eq_refl) as (-> & Hfree & ->).
    split; [done|]. split; [done|]. by destruct text.
Qed.

Lemma extract_free delim text :
  free_of delim text = true → extract delim text = (text, None).
Proof.
  induction text as [|c text IH]; [done|]. simpl.
  intros [Hc Hfree]%andb_prop. apply negb_true_iff in Hc. rewrite Hc.
  by rewrite (IH Hfree).
Qed.

Lemma extract_app delim before rest :
  free_of delim before = true →
  extract delim (before +:+ String delim rest) = (before, Some rest).
Proof.
  induction before as [|c before IH]; simpl.
  - by rewrite Ascii.eqb_refl.
  - intros [Hc Hfree]%andb_prop. apply negb_true_iff in Hc. rewrite Hc.
    by rewrite (IH Hfree).
Qed.

Section InputProperties.

Context `{Conversions}.

Lemma parseCSVLine_loop_pieces fuel ss cell row :
  String.length (buffer ss) < fuel →
  parseCSVLine_loop fuel ss cell row
  = Some (extend row (collect to_cell
            (if good ss then pieces ","%char (buffer ss) else []))).
Proof.
  revert ss cell row. induction fuel as [|fuel IH]; intros ss cell row Hfuel; [lia|].
  simpl. unfold getline. destruct (good ss) eqn:Hgood.
  - destruct (extract ","%char (buffer ss)) as [text [rest|]] eqn:Hex.
    + destruct (extract_Some _ _ _ _ Hex) as (_ & _ & Hlen & ->).
      simpl. unfold to_cell at 1. destruct (stod text) as [d|]; [|done].
      rewrite IH by (simpl; lia). simpl.
      destruct (collect to_cell (pieces ","%char rest)) as [ds|e]; simpl; [|done].
      by rewrite <- (assoc_L (++)).
    + destruct (extract_None _ _ _ Hex) as (-> & _ & ->).
      destruct (buffer ss) as [|c text] eqn:Hbuf; simpl.
      * by rewrite (right_id_L [] (++)).
      * unfold to_cell. destruct (stod (String c text)) as [d|]; [|done].
        rewrite IH by (simpl in *; lia). simpl. by rewrite (right_id_L [] (++)).
  - simpl. by rewrite (right_id_L [] (++)).
Qed.

(** X10. [parseCSVLine] never runs on: it converts the pieces of the line
    between commas from left to right and throws at the first piece that
    [std::stod] rejects; an empty piece at the very end is no cell, so
    the empty line gives the empty row and a comma at the end of the line
    changes nothing, while an empty piece anywhere else goes to
    [std::stod]. *)
Theorem parseCSVLine_cells line :
  parseCSVLine line = Some (cells line)
  ∧ parseCSVLine EmptyString = Some (Returned [])
  ∧ (∀ before,
       free_of ","%char before = true → before ≠ EmptyString →
       parseCSVLine (line +:+ String ","%char before +:+ ",")
       = parseCSVLine (line +:+ String ","%char before))
  ∧ (∀ rest,
       parseCSVLine (String ","%char rest)
       = Some (match to_cell EmptyString with
               | Thrown e => Thrown e
               | Returned d => extend [d] (cells rest)
               end)).
Proof.
  assert (Hcells : ∀ l, parseCSVLine l = Some (cells l)).
  { intros l. unfold parseCSVLine. rewrite parseCSVLine_loop_pieces by (simpl; lia).
    simpl. unfold cells. by destruct (collect _ _). }
  split; [done|]. split; [done|]. split.
  - intros before Hfree Hne. rewrite !Hcells. f_equal. unfold cells. f_equal.
    induction line as [|c line IH]; simpl.
    + f_equal.
      clear -Hfree Hne. induction before as [|c before IH]; [done|].
      simpl in *. apply andb_prop in Hfree as [Hc Hfree].
      apply negb_true_iff in Hc. rewrite Hc.
      destruct before as [|c' before]; [done|].
      by rewrite IH.
    + by rewrite IH.
  - intros rest. rewrite !Hcells. unfold cells. simpl. destruct (to_cell EmptyString); [|done].
    by destruct (collect to_cell (pieces ","%char rest)).
Qed.

Lemma read_rows_pieces fuel cin line rows :
  String.length (buffer cin) < fuel →
  read_rows fuel cin line rows
  = Some (extend rows (collect cells
            (if good cin then pieces newline (buffer cin) else []))).
Proof.
  assert (Hcells : ∀ l, parseCSVLine l = Some (cells l)).
  { intros l. unfold parseCSVLine. rewrite parseCSVLine_loop_pieces by (simpl; lia).
    simpl. unfold cells. by destruct (collect _ _). }
  revert cin line rows. induction fuel as [|fuel IH]; intros cin line rows Hfuel; [lia|].
  simpl. unfold getline. destruct (good cin) eqn:Hgood.
  - fold newline. destruct (extract newline (buffer cin)) as [text [rest|]] eqn:Hex.
    + destruct (extract_Some _ _ _ _ Hex) as (_ & _ & Hlen & ->).
      simpl. rewrite Hcells. destruct (cells text) as [row|e]; [|done].
      rewrite IH by (simpl; lia). simpl.
      destruct (collect cells (pieces newline rest)) as [ds|e]; simpl; [|done].
      by rewrite <- (assoc_L (++)).
    + destruct (extract_None _ _ _ Hex) as (-> & _ & ->).
      destruct (buffer cin) as [|c text] eqn:Hbuf; simpl.
      * by rewrite (right_id_L [] (++)).
      * rewrite Hcells. destruct (cells (String c text)) as [row|e]; [|done].
        rewrite IH by (simpl in *; lia). simpl. by rewrite (right_id_L [] (++)).
  - simpl. by rewrite (right_id_L [] (++)).
Qed.

Lemma TSPSolver_load_pieces cin :
  TSPSolver_load cin
  = Some (match collect cells
                  (if good cin then pieces newline (buffer cin) else []) with
          | Thrown e => Thrown e
          | Returned rows =>
              match loadAdjacencyMatrix rows with
              | None => Thrown invalid_matrix
              | Some adj => Returned adj
              end
          end).
Proof.
  unfold TSPSolver_load. rewrite read_rows_pieces by lia.
  destruct (collect cells _) as [rows|e]; simpl; [|done].
  by destruct (loadAdjacencyMatrix rows).
Qed.

End InputProperties.

Lemma pieces_free delim piece :
  free_of delim piece = true → piece ≠ EmptyString →
  pieces delim piece = [piece].
Proof.
  intros Hfree Hne.
  destruct (extract_None _ _ _ (extract_free _ _ Hfree)) as (_ & _ & ->).
  by destruct piece.
Qed.

Lemma pieces_app delim piece rest :
  free_of delim piece = true →
  pieces delim (piece +:+ String delim rest) = piece :: pieces delim rest.
Proof.
  intros Hfree.
  by destruct (extract_Some _ _ _ _ (extract_app delim piece rest Hfree))
    as (_ & _ & _ & ->).
Qed.

Lemma append_String a c b tail :
  (a +:+ String c b) +:+ tail = a +:+ String c (b +:+ tail).
Proof.
  induction a as [|c' a IH]; [done|].
  change (String c' ((a +:+ String c b) +:+ tail) = String c' (a +:+ String c (b +:+ tail))).
  by rewrite IH.
Qed.

Lemma pieces_join delim ps :
  Forall (λ p, free_of delim p = true) ps → last ps ≠ Some EmptyString →
  pieces delim (join delim ps) = ps
  ∧ (ps ≠ [] → pieces delim (join delim ps +:+ String delim EmptyString) = ps).
Proof.
  induction ps as [|p ps IH]; intros Hfree Hlast; [done|].
  apply Forall_cons in Hfree as [Hp Hfree].
  destruct ps as [|q ps].
  - simpl. split.
    + apply pieces_free; [done|]. by intros ->.
    + intros _. by rewrite pieces_app.
  - destruct (IH Hfree) as [IH1 IH2]; [done|].
    change (join delim (p :: q :: ps))
      with (p +:+ String delim (join delim (q :: ps))).
    split.
    + by rewrite pieces_app, IH1.
    + intros _. rewrite append_String, pieces_app by done. by rewrite IH2.
Qed.

Lemma free_of_app delim a b :
  free_of delim (a +:+ b) = free_of delim a && free_of delim b.
Proof.
  induction a as [|c a IH]; [done|]. simpl. by rewrite IH, andb_assoc.
Qed.

Lemma free_of_join delim sep ps :
  sep ≠ delim → Forall (λ p, free_of delim p = true) ps →
  free_of delim (join sep ps) = true.
Proof.
  intros Hsep. induction 1 as [|p ps Hp Hps IH]; [done|].
  destruct ps as [|q ps]; [done|].
  change (join sep (p :: q :: ps)) with (p +:+ String sep (join sep (q :: ps))).
  rewrite free_of_app, Hp. cbn [free_of andb]. rewrite IH.
  apply Ascii.eqb_neq in Hsep. by rewrite Hsep.
Qed.

Lemma join_not_empty delim ps :
  ps ≠ [] → Forall (λ p, p ≠ EmptyString) ps → join delim ps ≠ EmptyString.
Proof.
  intros Hne Hall. destruct ps as [|p ps]; [done|].
  apply Forall_cons in Hall as [Hp _].
  destruct ps as [|q ps]; [done|].
  change (join delim (p :: q :: ps))
    with (p +:+ String delim (join delim (q :: ps))).
  by destruct p.
Qed.

Lemma collect_fmap {A B : Type} (f : A → result B) (g : B → A) (l : list B) :
  (∀ y, y ∈ l → f (g y) = Returned y) → collect f (g <$> l) = Returned l.
Proof.
  induction l as [|y l IH]; intros Hall; [done|].
  rewrite fmap_cons. cbn [collect]. rewrite (Hall y) by left. rewrite IH; [done|].
  intros y' Hy'. apply Hall. by right.
Qed.

Lemma collect_elem {A B : Type} (f : A → result B) (l : list A) ys x :
  collect f l = Returned ys → x ∈ l → ∃ y, f x = Returned y ∧ y ∈ ys.
Proof.
  revert ys. induction l as [|x' l IH]; intros ys Hc Hx; [by inversion Hx|].
  simpl in Hc. destruct (f x') as [y'|] eqn:Hy'; [|done].
  destruct (collect f l) as [ys'|]; [|done]. simplify_eq.
  apply elem_of_cons in Hx as [-> | Hx].
  - exists y'. split; [done | left].
  - destruct (IH ys' eq_refl Hx) as (y & Hy & Hin). exists y. split; [done | by right].
Qed.

Lemma loadAdjacencyMatrix_Some rows adj :
  loadAdjacencyMatrix rows = Some adj
  ↔ adj = rows ∧ rows ≠ [] ∧ Forall (λ row, length row = length rows) rows.
Proof.
  unfold loadAdjacencyMatrix, isSquareMatrix. split.
  - destruct (length rows =? 0) eqn:Hlen; [done|]. simpl.
    destruct (forallb _ rows) eqn:Hall; [|done]. simpl. intros [= <-].
    split; [done|]. split.
    + intros ->. done.
    + apply List.Forall_forall. intros row Hrow.
      rewrite forallb_forall in Hall. by apply Nat.eqb_eq, Hall.
  - intros (-> & Hne & Hall).
    destruct (length rows =? 0) eqn:Hlen.
    { apply Nat.eqb_eq in Hlen. by destruct rows. }
    simpl. replace (forallb _ rows) with true; [done|].
    symmetry. apply forallb_forall. intros row Hrow. apply Nat.eqb_eq.
    rewrite List.Forall_forall in Hall. by apply Hall.
Qed.

Section Program.

Context `{Conversions} `{RandomEngine}.

(** X11. A square matrix written as text, one row per line and the cells
    of a row between commas, is loaded back as that very matrix, with or
    without a newline after the last row, when its cells are written as
    non-empty numerals without comma or newline that [std::stod] reads
    back. *)
Theorem TSPSolver_load_matrix_text (show : double → string) rows :
  (∀ row d, row ∈ rows → d ∈ row →
     stod (show d) = Some d
     ∧ free_of ","%char (show d) = true
     ∧ free_of newline (show d) = true
     ∧ show d ≠ EmptyString) →
  rows ≠ [] →
  Forall (λ row, length row = length rows) rows →
  (∀ row, row ∈ rows → parseCSVLine (row_text show row) = Some (Returned row))
  ∧ TSPSolver_load (istream_of (matrix_text show rows)) = Some (Returned rows)
  ∧ TSPSolver_load (istream_of (matrix_text show rows +:+ String newline EmptyString))
    = Some (Returned rows).
Proof.
  intros Hshow Hne Hsq.
  assert (Hrow : ∀ row, row ∈ rows → cells (row_text show row) = Returned row).
  { intros row Hin. unfold cells, row_text.
    assert (Hlen : length row = length rows).
    { rewrite Forall_forall in Hsq. by apply Hsq. }
    destruct (pieces_join ","%char (show <$> row)) as [-> _].
    - apply Forall_fmap, Forall_forall. intros d Hd. by apply (Hshow row d).
    - rewrite fmap_last. destruct (last row) as [d|] eqn:Hlast; [|done].
      simpl. intros [= Hd]. apply last_Some_elem_of in Hlast.
      by destruct (Hshow row d Hin Hlast) as (_ & _ & _ & ?).
    - apply collect_fmap. intros d Hd. unfold to_cell.
      by destruct (Hshow row d Hin Hd) as (-> & _). }
  assert (Hcells : ∀ l, parseCSVLine l = Some (cells l)).
  { intros l. unfold parseCSVLine. rewrite parseCSVLine_loop_pieces by (simpl; lia).
    simpl. unfold cells. by destruct (collect _ _). }
  assert (Hfree : Forall (λ p, free_of newline p = true) (row_text show <$> rows)).
  { apply Forall_fmap, Forall_forall. intros row Hin. simpl. unfold row_text.
    apply free_of_join; [done|].
    apply Forall_fmap, Forall_forall. intros d Hd. by apply (Hshow row d). }
  assert (Hlast : last (row_text show <$> rows) ≠ Some EmptyString).
  { rewrite fmap_last. destruct (last rows) as [row|] eqn:Hl; [|done].
    simpl. intros [= Hrt]. apply last_Some_elem_of in Hl.
    revert Hrt. apply join_not_empty.
    - assert (Hlen : length row = length rows).
      { rewrite Forall_forall in Hsq. by apply Hsq. }
      destruct row; [|done]. by destruct rows.
    - apply Forall_fmap, Forall_forall. intros d Hd.
      by destruct (Hshow row d Hl Hd) as (_ & _ & _ & ?). }
  destruct (pieces_join newline _ Hfree Hlast) as [Hp1 Hp2].
  assert (Hload : loadAdjacencyMatrix rows = Some rows).
  { by apply loadAdjacencyMatrix_Some. }
  split; [|split].
  - intros row Hin. by rewrite Hcells, Hrow.
  - rewrite TSPSolver_load_pieces. simpl. unfold matrix_text. rewrite Hp1.
    rewrite (collect_fmap cells (row_text show) rows Hrow). by rewrite Hload.
  - rewrite TSPSolver_load_pieces. simpl. unfold matrix_text. rewrite Hp2.
    + rewrite (collect_fmap cells (row_text show) rows Hrow). by rewrite Hload.
    + by destruct rows.
Qed.

(** X12. The three parameters are the first three fields of the first
    line between single spaces, and what comes after a third space is
    not looked at.  A missing field is no error: the result of
    [std::getline] is not tested, so [std::stoi] is given the field
    before once more; with two fields the seed is the restart count, with
    one field all three parameters are the same number. *)
Theorem read_parameters_fields a b c more :
  free_of " "%char a = true →
  free_of " "%char b = true →
  free_of " "%char c = true →
  read_parameters a = parameters a a a
  ∧ read_parameters (a +:+ String " "%char b) = parameters a b b
  ∧ read_parameters (a +:+ String " "%char (b +:+ String " "%char c))
    = parameters a b c
  ∧ read_parameters
      (a +:+ String " "%char (b +:+ String " "%char (c +:+ String " "%char more)))
    = parameters a b c.
Proof.
  intros Ha Hb Hc. unfold read_parameters, parameters, getline.
  cbn [istream_of good eofbit failbit buffer negb andb].
  split; [|split; [|split]].
  - rewrite (extract_free _ _ Ha). destruct (stoi a) eqn:Ea; [|done].
    destruct a; cbn [good eofbit failbit buffer negb andb]; by rewrite Ea.
  - rewrite (extract_app _ _ _ Ha). destruct (stoi a); [|done].
    cbn [good eofbit failbit buffer negb andb].
    rewrite (extract_free _ _ Hb). destruct (stoi b) eqn:Eb; [|done].
    destruct b; cbn [good eofbit failbit buffer negb andb]; by rewrite Eb.
  - rewrite (extract_app _ _ _ Ha). destruct (stoi a); [|done].
    cbn [good eofbit failbit buffer negb andb].
    rewrite (extract_app _ _ _ Hb). destruct (stoi b); [|done].
    cbn [good eofbit failbit buffer negb andb].
    rewrite (extract_free _ _ Hc). done.
  - rewrite (extract_app _ _ _ Ha). destruct (stoi a); [|done].
    cbn [good eofbit failbit buffer negb andb].
    rewrite (extract_app _ _ _ Hb). destruct (stoi b); [|done].
    cbn [good eofbit failbit buffer negb andb].
    rewrite (extract_app _ _ _ Hc). done.
Qed.

Lemma main_cin_lines input :
  main_cin input
  = match read_parameters (input_lines input).1 with
    | Thrown e => Some (Failed e)
    | Returned (numIterations, numRestarts, seed) =>
        match collect cells (input_lines input).2 with
        | Thrown e => Some (Failed e)
        | Returned rows =>
            match loadAdjacencyMatrix rows with
            | None => Some (Failed invalid_matrix)
            | Some adj =>
                '(bestTour, length) ← main adj numIterations numRestarts seed;
                Some (Printed bestTour length)
            end
        end
    end.
Proof.
  unfold main_cin, input_lines, getline.
  cbn [istream_of good eofbit failbit buffer negb andb]. fold newline.
  destruct (extract newline input) as [first [rest|]]; cbn [fst snd].
  - destruct (read_parameters first) as [[[numIterations numRestarts] seed]|e]; [|done].
    rewrite TSPSolver_load_pieces. cbn [good eofbit failbit buffer negb andb].
    destruct (collect cells (pieces newline rest)) as [rows|e]; [|done].
    by destruct (loadAdjacencyMatrix rows).
  - destruct (read_parameters first) as [[[numIterations numRestarts] seed]|e]; [|done].
    rewrite TSPSolver_load_pieces. cbn [good eofbit failbit buffer negb andb].
    done.
Qed.

(** X13. On every input text the program ends in one of two ways: it
    prints a tour and a length, or it reports an exception; no loop runs
    on and no vector is indexed out of range.  The parameters are looked
    at first: when they are rejected the matrix is not read.  A tour is
    printed exactly when the parameters are read, every cell of every
    line after the first is accepted by [std::stod] and the rows make a
    non-empty square matrix, and then it is what the solver gives on that
    matrix. *)
Theorem main_cin_outcome input :
  ∃ out,
    main_cin input = Some out
    ∧ (∀ e, read_parameters (input_lines input).1 = Thrown e → out = Failed e)
    ∧ (∀ tour len,
         out = Printed tour len
         ↔ ∃ numIterations numRestarts seed rows,
             read_parameters (input_lines input).1
             = Returned (numIterations, numRestarts, seed)
             ∧ collect cells (input_lines input).2 = Returned rows
             ∧ rows ≠ []
             ∧ Forall (λ row, length row = length rows) rows
             ∧ main rows numIterations numRestarts seed = Some (tour, len)).
Proof.
  rewrite main_cin_lines.
  destruct (read_parameters (input_lines input).1)
    as [[[numIterations numRestarts] seed]|e].
  2:{ exists (Failed e). split; [done|]. split; [by intros ? [= ->]|].
      intros tour len. split; [done|]. by intros (? & ? & ? & ? & ? & _). }
  destruct (collect cells (input_lines input).2) as [rows|e].
  2:{ exists (Failed e). split; [done|]. split; [done|].
      intros tour len. split; [done|]. by intros (? & ? & ? & ? & _ & ? & _). }
  destruct (loadAdjacencyMatrix rows) as [adj|] eqn:Hload.
  - pose proof Hload as Hl. apply loadAdjacencyMatrix_Some in Hl as (-> & Hne & Hsq).
    destruct (main_spec rows numIterations numRestarts seed Hload)
      as (best & gen' & _ & [[_ Hmain] | [_ Hmain]]); rewrite Hmain; simpl.
    + eexists. split; [done|]. split; [done|]. intros tour len. split.
      * intros [= <- <-]. by exists numIterations, numRestarts, seed, rows.
      * intros (? & ? & ? & ? & [= <- <- <-] & [= <-] & _ & _ & Hm).
        rewrite Hmain in Hm. by simplify_eq.
    + destruct best as [bestTour bestLength]. simpl in *.
      eexists. split; [done|]. split; [done|]. intros tour len. split.
      * intros [= <- <-]. by exists numIterations, numRestarts, seed, rows.
      * intros (? & ? & ? & ? & [= <- <- <-] & [= <-] & _ & _ & Hm).
        rewrite Hmain in Hm. by simplify_eq.
  - exists (Failed invalid_matrix). split; [done|]. split; [done|].
    intros tour len. split; [done|].
    intros (? & ? & ? & ? & _ & [= <-] & Hne & Hsq & _).
    assert (loadAdjacencyMatrix rows = Some rows) by by apply loadAdjacencyMatrix_Some.
    congruence.
Qed.

(** X14. An empty line among the lines of the matrix (a blank line
    between two rows, or a second newline after the last row) is read as
    a row without cells, so the program reports an exception and prints
    no tour, whatever the other lines are. *)
Theorem main_cin_blank_line input :
  EmptyString ∈ (input_lines input).2 →
  ∃ e, main_cin input = Some (Failed e).
Proof.
  intros Hblank. rewrite main_cin_lines.
  destruct (read_parameters (input_lines input).1)
    as [[[numIterations numRestarts] seed]|e]; [|by eexists].
  destruct (collect cells (input_lines input).2) as [rows|e] eqn:Hrows; [|by eexists].
  destruct (collect_elem _ _ _ _ Hrows Hblank) as (row & Hrow & Hin).
  change (cells EmptyString) with (@Returned (list double) []) in Hrow.
  simplify_eq.
  destruct (loadAdjacencyMatrix rows) as [adj|] eqn:Hload; [|by eexists].
  apply loadAdjacencyMatrix_Some in Hload as (-> & Hne & Hsq).
  rewrite Forall_forall in Hsq. specialize (Hsq [] Hin).
  destruct rows; [by inversion Hin | done].
Qed.

End Program.

(** * The runs of the parallel solver *)

Lemma not_ltb_leb x y :
  Double.is_nan x = false → Double.is_nan y = false →
  Double.ltb x y = false → SFleb y x = true.
Proof.
  unfold Double.ltb, SFltb, SFleb. rewrite (SFcompare_antisym x y).
  intros Hx Hy.
  assert (is_Some (SFcompare x y)) as [c Hc].
  { destruct x as [[]|[]| |[]], y as [[]|[]| |[]]; simpl in *; by eauto. }
  rewrite Hc. simpl. by destruct c.
Qed.

Lemma elem_of_concat {A : Type} (x : A) (ls : list (list A)) :
  x ∈ concat ls ↔ ∃ l, x ∈ l ∧ l ∈ ls.
Proof.
  induction ls as [|l ls IH]; simpl.
  - split; [by intros ?%elem_of_nil | by intros (? & _ & ?%elem_of_nil)].
  - rewrite elem_of_app, IH. split.
    + intros [Hx | (l' & Hx & Hl')]; [exists l; split; [done | left]|].
      exists l'. split; [done | by right].
    + intros (l' & Hx & [-> | Hl']%elem_of_cons); [by left|].
      right. by exists l'.
Qed.

Lemma reduce_two_levels (rss : list (list (Tour * double))) :
  let best := reduce no_best (reduce no_best <$> rss) in
  (∀ r, r ∈ concat rss → Double.ltb r.2 best.2 = false)
  ∧ (best = no_best ∨ best ∈ concat rss)
  ∧ (best = no_best ∨ Double.ltb best.2 Double.max = true).
Proof.
  intros best. split; [|split].
  - intros r (rs & Hr & Hrs)%elem_of_concat.
    destruct (reduce_lower_bound no_best (reduce no_best <$> rss)) as [_ Hlocal].
    specialize (Hlocal (reduce no_best rs)).
    destruct (reduce_lower_bound no_best rs) as [_ Hrun]. specialize (Hrun r Hr).
    fold best in Hlocal.
    destruct (Double.ltb r.2 best.2) eqn:Hlt; [|done].
    rewrite <- Hlocal; [|by apply list_elem_of_fmap_2].
    symmetry. apply (leb_ltb_trans _ r.2); [|done].
    apply not_ltb_leb; [by eapply ltb_not_nan | by apply reduce_not_nan | done].
  - destruct (reduce_elem no_best (reduce no_best <$> rss)) as [Hb | Hin]; [by left|].
    apply list_elem_of_fmap in Hin as (rs & Hb & Hrs). fold best in Hb.
    destruct (reduce_elem no_best rs) as [Hn | Hin]; [left; congruence|].
    right. apply elem_of_concat. exists rs. split; [congruence | done].
  - apply reduce_below.
Qed.

Section ParallelRuns.

Context `{RandomEngine}.

Lemma critical_loop_runs adj numIterations baseSeed s best :
  valid_matrix adj →
  ∃ rss,
    Forall2 (λ ts rs, ∃ gen',
               runs adj numIterations ts.2
                 (seed_engine (to_unsigned (baseSeed + Z.of_nat ts.1)))
               = Some (rs, gen')) s rss
    ∧ length (concat rss) = sum_list (s.*2)
    ∧ (∀ r, r ∈ concat rss → anchored_tour (length adj) r.1
                               ∧ calculateTourLength adj r.1 = Some r.2)
    ∧ critical_loop adj numIterations baseSeed s best
      = Some (reduce best (reduce no_best <$> rss)).
Proof.
  intros Hv. revert best. induction s as [|[threadId share] s IH]; intros best.
  - exists []. split; [constructor|]. split; [done|]. split; [|done].
    intros r Hin. by apply elem_of_nil in Hin.
  - destruct (worker_spec adj numIterations baseSeed threadId share Hv)
      as (rs & gen' & Hruns & Hlen & Hall & Hw).
    destruct (IH (keep_best best (reduce no_best rs))) as (rss & Hrss & Hsum & Hok & Hloop).
    exists (rs :: rss). split; [constructor; [by exists gen' | done]|]. split; [|split].
    + simpl. rewrite length_app, Hlen, Hsum. done.
    + simpl. intros r [Hin | Hin]%elem_of_app; [by apply Hall | by apply Hok].
    + simpl. rewrite Hw. simpl. exact Hloop.
Qed.

(** X15. The parallel solver makes as many hill-climb runs as the shares
    of the threads add up to, thread [t] drawing from an engine of its
    own seeded with [baseSeed + t], and the two reductions (per thread,
    then in the critical section) end on a run that no run of any thread
    is strictly shorter than: when some run is below [max()] a run of
    minimal length is returned, a permutation with node 0 in front
    together with its own length; when none is, the empty tour is
    returned. *)
Theorem parallel_returns_a_shortest_run adj numIterations numRestarts baseSeed s :
  valid_matrix adj →
  ∃ rss best,
    Forall2 (λ ts rs, ∃ gen',
               runs adj numIterations ts.2
                 (seed_engine (to_unsigned (baseSeed + Z.of_nat ts.1)))
               = Some (rs, gen')) s rss
    ∧ length (concat rss) = sum_list (s.*2)
    ∧ shotgunHillClimbingParallel adj numIterations numRestarts baseSeed s = Some best
    ∧ (∀ r, r ∈ concat rss → Double.ltb r.2 best.2 = false)
    ∧ ((∀ r, r ∈ concat rss → Double.ltb r.2 Double.max = false) → best = no_best)
    ∧ ((∃ r, r ∈ concat rss ∧ Double.ltb r.2 Double.max = true) →
       best ∈ concat rss
       ∧ anchored_tour (length adj) best.1
       ∧ calculateTourLength adj best.1 = Some best.2).
Proof.
  intros Hv. unfold shotgunHillClimbingParallel.
  destruct (critical_loop_runs adj numIterations baseSeed s no_best Hv)
    as (rss & Hrss & Hsum & Hok & ->).
  destruct (reduce_two_levels rss) as (Hmin & Hin & Hbelow).
  exists rss, (reduce no_best (reduce no_best <$> rss)).
  split; [done|]. split; [done|]. split; [done|]. split; [done|]. split.
  - intros Hnone. destruct Hin as [Hn | Hin]; [done|].
    destruct Hbelow as [Hn | Hlt]; [done|].
    by rewrite (Hnone _ Hin) in Hlt.
  - intros (r & Hr & Hlt).
    assert (Hbest : reduce no_best (reduce no_best <$> rss) ∈ concat rss).
    { destruct Hin as [Hn | Hin]; [|done].
      specialize (Hmin r Hr). rewrite Hn in Hmin. simpl in Hmin. congruence. }
    split; [done|]. by apply Hok.
Qed.

End ParallelRuns.

(** * The further properties on instances *)

Lemma calculateTourLength_in_bounds_witness :
  valid_matrix classic4
  ∧ (is_Some (calculateTourLength classic4 [2; 2; 7]%Z)
     ↔ in_range (length classic4) [2; 2; 7]%Z)
  ∧ calculateTourLength classic4 [] = Some Double.zero.
Proof.
  assert (Hv : valid_matrix classic4) by (vm_compute; reflexivity).
  split; [exact Hv|].
  exact (calculateTourLength_in_bounds classic4 [2; 2; 7]%Z Hv).
Defined.

Lemma calculateTourLength_not_negative_witness :
  matrix_nonneg classic4 = true
  ∧ calculateTourLength classic4 [0; 1; 3; 2]%Z = Some (Double.of_Z 80)
  ∧ Double.is_nan (Double.of_Z 80) = false
  ∧ SFleb Double.zero (Double.of_Z 80) = true
  ∧ Double.ltb (Double.of_Z 80) Double.zero = false.
Proof.
  assert (Hn : matrix_nonneg classic4 = true) by (vm_compute; reflexivity).
  assert (Hl : calculateTourLength classic4 [0; 1; 3; 2]%Z = Some (Double.of_Z 80))
    by (vm_compute; reflexivity).
  split; [exact Hn|]. split; [exact Hl|].
  exact (calculateTourLength_not_negative classic4 [0; 1; 3; 2]%Z (Double.of_Z 80) Hn Hl).
Defined.

Lemma twoOptSwap_involutive_witness :
  1 ≤ 3 ∧ 3 < length [0; 1; 2; 3; 4]%Z
  ∧ twoOptSwap (twoOptSwap [0; 1; 2; 3; 4]%Z 1 3) 1 3 = [0; 1; 2; 3; 4]%Z.
Proof.
  assert (H1 : 1 ≤ 3) by lia.
  assert (H2 : 3 < length [0; 1; 2; 3; 4]%Z) by (simpl; lia).
  split; [exact H1|]. split; [exact H2|].
  exact (twoOptSwap_involutive [0; 1; 2; 3; 4]%Z 1 3 H1 H2).
Defined.


Lemma shotgunHillClimbing_more_restarts_witness :
  valid_matrix detour4 ∧ (1 ≤ 3)%Z
  ∧ ∃ best gen1 best' gen2,
      shotgunHillClimbing detour4 100 1 (seed_engine 3) = Some (best, gen1)
      ∧ shotgunHillClimbing detour4 100 3 (seed_engine 3) = Some (best', gen2)
      ∧ below_or_same best'.2 best.2
      ∧ SFleb best'.2 best.2 = true.
Proof.
  assert (Hv : valid_matrix detour4) by (vm_compute; reflexivity).
  assert (HR : (1 ≤ 3)%Z) by lia.
  split; [exact Hv|]. split; [exact HR|].
  destruct (shotgunHillClimbing_more_restarts detour4 100 1 3 (seed_engine 3) Hv HR)
    as (rs & more & best & gen1 & best' & gen2 & _ & _ & Hs & Hs' & _ & Hb & Hle).
  exists best, gen1, best', gen2.
  split; [exact Hs|]. split; [exact Hs'|]. split; [exact Hb | exact Hle].
Defined.

Lemma parallel_length_independent_of_critical_order_witness :
  valid_matrix detour4
  ∧ [(0, 1); (1, 1)] ≡ₚ [(1, 1); (0, 1)]
  ∧ ∃ best best',
      shotgunHillClimbingParallel detour4 100 2 3 [(0, 1); (1, 1)] = Some best
      ∧ shotgunHillClimbingParallel detour4 100 2 3 [(1, 1); (0, 1)] = Some best'
      ∧ SFeqb best.2 best'.2 = true.
Proof.
  assert (Hv : valid_matrix detour4) by (vm_compute; reflexivity).
  assert (Hp : [(0, 1); (1, 1)] ≡ₚ [(1, 1); (0, 1)]) by apply perm_swap.
  split; [exact Hv|]. split; [exact Hp|].
  destruct (parallel_length_independent_of_critical_order detour4 100 2 3 _ _ Hv Hp)
    as (best & best' & Hs & Hs' & Heq & _).
  exists best, best'. split; [exact Hs|]. split; [exact Hs' | exact Heq].
Defined.

Lemma main_prints_first_shortest_run_witness :
  valid_matrix classic4
  ∧ ∃ rs gen',
      runs classic4 100 5 (seed_engine (to_unsigned 42)) = Some (rs, gen')
      ∧ ((∃ r, r ∈ rs ∧ Double.ltb r.2 Double.max = true) →
         ∃ k r, rs !! k = Some r
           ∧ main classic4 100 5 42 = Some r
           ∧ anchored_tour 4 r.1
           ∧ (∀ r', r' ∈ rs → Double.ltb r'.2 r.2 = false)).
Proof.
  assert (Hv : valid_matrix classic4) by (vm_compute; reflexivity).
  split; [exact Hv|].
  destruct (main_prints_first_shortest_run classic4 100 5 42 Hv)
    as (rs & gen' & Hruns & _ & _ & Hsome).
  exists rs, gen'. split; [exact Hruns|]. intros Hex.
  destruct (Hsome Hex) as (k & r & Hk & Hmain & Hanch & Hmin & _).
  exists k, r. split; [exact Hk|]. split; [exact Hmain|]. split; [exact Hanch | exact Hmin].
Defined.

Lemma programs_stay_in_bounds_witness :
  valid_matrix far2
  ∧ (∃ out, main far2 (-1) 7 0 = Some out)
  ∧ ∃ out, main_parallel far2 (-1) 7 0 [(0, 3); (5, 4)] = Some out.
Proof.
  assert (Hv : valid_matrix far2) by (vm_compute; reflexivity).
  split; [exact Hv|].
  destruct (programs_stay_in_bounds far2 (-1) 7 0 Hv) as [Hmain Hpar].
  split; [exact Hmain|].
  destruct (Hpar [(0, 3); (5, 4)]) as (out & Hout & _). exists out. exact Hout.
Defined.

Lemma non_positive_parameters_witness :
  solveTSP classic4 100 (-2) (seed_engine 1) = Some []
  ∧ main classic4 100 (-2) 42 = Some ([], Double.zero)
  ∧ ∃ len0,
      hillClimb classic4 0 (seed_engine 1)
      = Some (((generateRandomTour classic4 (seed_engine 1)).1, len0),
              (generateRandomTour classic4 (seed_engine 1)).2).
Proof.
  assert (Hv : valid_matrix classic4) by (vm_compute; reflexivity).
  destruct (non_positive_parameters classic4 100 (-2) 42 (seed_engine 1))
    as [Hrestarts _].
  destruct (non_positive_parameters classic4 0 5 42 (seed_engine 1))
    as [_ Hcap].
  destruct Hrestarts as [Hsolve Hmain]; [lia|].
  destruct (Hcap Hv) as (len0 & _ & Hrun); [lia|].
  split; [exact Hsolve|]. split; [exact Hmain|]. exists len0. exact Hrun.
Defined.

Lemma parseCSVLine_cells_witness :
  parseCSVLine "0,10,15" = Some (Returned (map Double.of_Z [0; 10; 15]%Z))
  ∧ parseCSVLine "0,10,15," = parseCSVLine "0,10,15"
  ∧ parseCSVLine "0,,15" = Some (Thrown bad_number).
Proof.
  destruct (parseCSVLine_cells "0,10") as (_ & _ & Hcomma & _).
  destruct (parseCSVLine_cells "0,10,15") as (Hcells & _).
  destruct (parseCSVLine_cells "0,,15") as (Hempty & _).
  split; [exact Hcells|]. split; [|exact Hempty].
  apply (Hcomma "15"); [reflexivity | discriminate].
Defined.

Lemma TSPSolver_load_matrix_text_witness :
  matrix_text show7 pair7 = "0,7" +:+ String newline "7,0"
  ∧ TSPSolver_load (istream_of (matrix_text show7 pair7)) = Some (Returned pair7)
  ∧ TSPSolver_load (istream_of (matrix_text show7 pair7 +:+ String newline EmptyString))
    = Some (Returned pair7).
Proof.
  split; [reflexivity|].
  assert (Hshow : ∀ row d, row ∈ pair7 → d ∈ row →
            stod (show7 d) = Some d
            ∧ free_of ","%char (show7 d) = true
            ∧ free_of newline (show7 d) = true
            ∧ show7 d ≠ EmptyString).
  { intros row d Hrow Hd.
    assert (Hcell : d = Double.of_Z 0 ∨ d = Double.of_Z 7).
    { unfold pair7 in Hrow. simpl in Hrow.
      apply elem_of_cons in Hrow as [-> | Hrow].
      - apply elem_of_cons in Hd as [-> | Hd]; [by left|].
        apply list_elem_of_singleton in Hd as ->. by right.
      - apply list_elem_of_singleton in Hrow as ->.
        apply elem_of_cons in Hd as [-> | Hd]; [by right|].
        apply list_elem_of_singleton in Hd as ->. by left. }
    destruct Hcell as [-> | ->]; (split; [reflexivity|]);
      (split; [reflexivity|]); (split; [reflexivity | discriminate]). }
  assert (Hne : pair7 ≠ []) by discriminate.
  assert (Hsq : Forall (λ row, length row = length pair7) pair7).
  { repeat constructor. }
  destruct (TSPSolver_load_matrix_text show7 pair7 Hshow Hne Hsq) as (_ & Hload & Hnl).
  split; [exact Hload | exact Hnl].
Defined.

Lemma read_parameters_fields_witness :
  read_parameters "100" = Returned (100, 100, 100)%Z
  ∧ read_parameters "100 5" = Returned (100, 5, 5)%Z
  ∧ read_parameters "100 5 42" = Returned (100, 5, 42)%Z
  ∧ read_parameters "100 5 42 and more" = Returned (100, 5, 42)%Z
  ∧ read_parameters "100  5 42" = Thrown bad_number.
Proof.
  assert (Ha : free_of " "%char "100" = true) by reflexivity.
  assert (Hb : free_of " "%char "5" = true) by reflexivity.
  assert (Hc : free_of " "%char "42" = true) by reflexivity.
  assert (He : free_of " "%char EmptyString = true) by reflexivity.
  destruct (read_parameters_fields "100" "5" "42" "and more" Ha Hb Hc)
    as (H1 & H2 & H3 & H4).
  destruct (read_parameters_fields "100" EmptyString "5" "42" Ha He Hb)
    as (_ & _ & _ & H5).
  split; [exact H1|]. split; [exact H2|]. split; [exact H3|].
  split; [exact H4 | exact H5].
Defined.

Lemma main_cin_outcome_witness :
  main_cin classic4_input
  = Some (Printed [0; 2; 3; 1]%Z (Double.of_Z 80)).
Proof.
  destruct (main_cin_outcome classic4_input) as (out & Hout & _ & Hprinted).
  rewrite Hout. f_equal. apply Hprinted.
  exists 100%Z, 5%Z, 42%Z, classic4.
  split; [reflexivity|]. split; [reflexivity|]. split; [discriminate|].
  split; [repeat constructor | vm_compute; reflexivity].
Defined.

Lemma main_cin_blank_line_witness :
  EmptyString ∈ (input_lines blank_line_input).2
  ∧ ∃ e, main_cin blank_line_input = Some (Failed e).
Proof.
  assert (Hblank : EmptyString ∈ (input_lines blank_line_input).2).
  { apply (list_elem_of_lookup_2 _ 1). reflexivity. }
  split; [exact Hblank|].
  exact (main_cin_blank_line blank_line_input Hblank).
Defined.

Lemma parallel_returns_a_shortest_run_witness :
  valid_matrix detour4
  ∧ ∃ (rss : list (list (Tour * double))) best,
      length (concat rss) = 2
      ∧ shotgunHillClimbingParallel detour4 100 2 3 [(0, 1); (1, 1)] = Some best
      ∧ (∀ r, r ∈ concat rss → Double.ltb r.2 best.2 = false).
Proof.
  assert (Hv : valid_matrix detour4) by (vm_compute; reflexivity).
  split; [exact Hv|].
  destruct (parallel_returns_a_shortest_run detour4 100 2 3 [(0, 1); (1, 1)] Hv)
    as (rss & best & _ & Hlen & Hs & Hmin & _).
  exists rss, best. split; [exact Hlen|]. split; [exact Hs | exact Hmin].
Defined.
